(** * Lane boundary tracking: a shallow embedding of the notebook's core

    The notebook [project_2_advanced_lane_finder] finds the two lane
    boundaries in a rectified binary image.  This file embeds the functions
    [windowHistograms], [searchAroundPoly], [fit_poly],
    [measure_curvature_real], [detectLane] and [process_image] and proves
    properties of them.

    Conventions of the embedding.
    - Pixel values and pixel coordinates are integers ([Z]).
    - A NumPy array that is passed around by reference lives in a heap
      ([gmap] from locations to contents); the Python globals [left_fit],
      [right_fit] and [binary_warped] are fields of the [world].
    - Every Python [def] is an action of the state-and-exception monad [M].
    - Floating-point numbers: a finite value is an exact rational ([Q]), so
      rounding is idealised.  In the radius of curvature, the one computation
      whose floats can end in an exception, overflow and division by zero
      give the IEEE infinities and NaN.
    - The coefficients [left_fit] and [right_fit] handed to the warm-start
      search are a Python list of numbers: a coefficient of integer value is
      read as a Python [int], whose products and sums with the 64-bit index
      arrays wrap around, any other as a [float].
    - Library routines whose code is not part of the notebook ([np.polyfit],
      the power [** 1.5], [cv2.fillPoly], the image preprocessing) are
      variables of the section [Core]. *)

From Stdlib Require Import ZArith QArith Qround Qabs Qpower List String Lia.
From stdpp Require Import base option list gmap strings pretty.

Local Open Scope Z_scope.

(** ** Exceptions and results *)

Inductive exn : Type :=
| TypeError
| ValueError
| NameError
| IndexError
| LinAlgError
| OverflowError.

Inductive result (A : Type) : Type :=
| Ok (a : A)
| Raise (e : exn).

Arguments Ok {A} a.
Arguments Raise {A} e.

#[global] Instance exn_eq_dec : EqDecision exn.
Proof. solve_decision. Defined.

Definition rbind {A B : Type} (r : result A) (k : A -> result B) : result B :=
  match r with
  | Ok a => k a
  | Raise e => Raise e
  end.

(** ** Arrays *)

Abbreviation grid := (list (list Z)).

(** [image.shape[0]] and [image.shape[1]] of a two-dimensional array. *)
Definition shape0 (image : grid) : Z := Z.of_nat (length image).

Definition shape1 (image : grid) : Z :=
  match image with
  | [] => 0
  | row :: _ => Z.of_nat (length row)
  end.

(** [np.sum(rows, axis=0)] for rows of width [W]. *)
Fixpoint sum_axis0 (W : nat) (rows : grid) : list Z :=
  match rows with
  | [] => replicate W 0
  | row :: rest => zip_with Z.add row (sum_axis0 W rest)
  end.

(** [np.argmax]: the index of the first occurrence of the maximum;
    [ValueError] on an empty sequence. *)
Fixpoint argmax_from (best : nat) (best_v : Z) (i : nat) (l : list Z) : nat :=
  match l with
  | [] => best
  | v :: rest =>
      if best_v <? v then argmax_from i v (S i) rest
      else argmax_from best best_v (S i) rest
  end.

Definition argmax (l : list Z) : result Z :=
  match l with
  | [] => Raise ValueError
  | v :: rest => Ok (Z.of_nat (argmax_from 0 v 1 rest))
  end.

(** [mask.nonzero()[0]]: the positions at which a boolean mask holds. *)
Fixpoint flatnonzero_from (i : nat) (mask : list bool) : list nat :=
  match mask with
  | [] => []
  | b :: rest =>
      if b then i :: flatnonzero_from (S i) rest
      else flatnonzero_from (S i) rest
  end.

Definition flatnonzero (mask : list bool) : list nat := flatnonzero_from 0 mask.

(** [image.nonzero()]: row indices and column indices of the non-zero
    entries, in row-major order. *)
Definition row_nonzero (row : list Z) : list nat :=
  flatnonzero (map (fun v => negb (v =? 0)) row).

Definition nonzero_cells (image : grid) : list (nat * nat) :=
  concat (imap (fun y row => map (fun x => (y, x)) (row_nonzero row)) image).

Definition nonzero (image : grid) : list Z * list Z :=
  (map (fun c => Z.of_nat (fst c)) (nonzero_cells image),
   map (fun c => Z.of_nat (snd c)) (nonzero_cells image)).

(** [arr[inds]] for an array of indices and [arr[mask]] for a boolean mask. *)
Definition take_inds (arr : list Z) (inds : list nat) : list Z :=
  map (fun i => nth i arr 0) inds.

Fixpoint take_mask (arr : list Z) (mask : list bool) : list Z :=
  match arr, mask with
  | v :: arr', b :: mask' =>
      if b then v :: take_mask arr' mask' else take_mask arr' mask'
  | _, _ => []
  end.

Definition zsum (l : list Z) : Z := fold_right Z.add 0 l.

(** [np.int(np.mean(xs))]: the mean of integers, truncated towards zero
    (the quotient is exact far beyond any image size). *)
Definition int_mean (xs : list Z) : Z := Z.quot (zsum xs) (Z.of_nat (length xs)).

(** ** Cold-start search: [windowHistograms] *)

Definition nwindows : Z := 9.
Definition window_margin : Z := 80.
Definition minpix : Z := 30.

(** [histogram = np.sum(image[image.shape[0]//2:,:], axis=0)] *)
Definition histogram (image : grid) : list Z :=
  sum_axis0 (Z.to_nat (shape1 image)) (drop (Z.to_nat (shape0 image / 2)) image).

(** [leftx_base] and [rightx_base]. *)
Definition lane_bases (image : grid) : result (Z * Z) :=
  let hist := histogram image in
  let midpoint := Z.of_nat (length hist) / 2 in
  rbind (argmax (take (Z.to_nat midpoint) hist)) (fun leftx_base =>
  rbind (argmax (drop (Z.to_nat midpoint) hist)) (fun right_arg =>
  Ok (leftx_base, right_arg + midpoint))).

(** The indices of the non-zero pixels inside a window.  The mask of the
    right window is written with one [*] in place of [&]; on boolean arrays
    the product is the conjunction, so both masks are this one. *)
Definition good_inds (nonzeroy nonzerox : list Z)
    (win_y_low win_y_high win_x_low win_x_high : Z) : list nat :=
  flatnonzero
    (zip_with
       (fun y x =>
          (y <? win_y_high) && (win_y_low <=? y)
          && (x <? win_x_high) && (win_x_low <=? x))%bool
       nonzeroy nonzerox).

(** The loop state: the two current centres and the lists of index arrays. *)
Record windows : Type := Windows {
  leftx_current : Z;
  rightx_current : Z;
  left_lane_inds : list (list nat);
  right_lane_inds : list (list nat)
}.

Definition window_left (H window_height : Z) (nonzeroy nonzerox : list Z)
    (st : windows) (window : Z) : list nat :=
  good_inds nonzeroy nonzerox
    (H - (window + 1) * window_height) (H - window * window_height)
    (leftx_current st - window_margin) (leftx_current st + window_margin).

Definition window_right (H window_height : Z) (nonzeroy nonzerox : list Z)
    (st : windows) (window : Z) : list nat :=
  good_inds nonzeroy nonzerox
    (H - (window + 1) * window_height) (H - window * window_height)
    (rightx_current st - window_margin) (rightx_current st + window_margin).

(** One iteration of [for window in range(nwindows)]. *)
Definition window_step (H window_height : Z) (nonzeroy nonzerox : list Z)
    (st : windows) (window : Z) : windows :=
  let good_left_inds := window_left H window_height nonzeroy nonzerox st window in
  let good_right_inds := window_right H window_height nonzeroy nonzerox st window in
  {| leftx_current :=
       if minpix <? Z.of_nat (length good_left_inds)
       then int_mean (take_inds nonzerox good_left_inds)
       else leftx_current st;
     rightx_current :=
       if minpix <? Z.of_nat (length good_right_inds)
       then int_mean (take_inds nonzerox good_right_inds)
       else rightx_current st;
     left_lane_inds := left_lane_inds st ++ [good_left_inds];
     right_lane_inds := right_lane_inds st ++ [good_right_inds] |}.

Definition window_range : list Z := map Z.of_nat (seq 0 (Z.to_nat nwindows)).

Definition window_loop (image : grid) (leftx_base rightx_base : Z) : windows :=
  let window_height := shape0 image / nwindows in
  let nz := nonzero image in
  fold_left (window_step (shape0 image) window_height (fst nz) (snd nz))
    window_range
    {| leftx_current := leftx_base; rightx_current := rightx_base;
       left_lane_inds := []; right_lane_inds := [] |}.

(** The body of [windowHistograms] on the contents of the array.
    [np.concatenate] is given the nine index arrays of the loop, so the
    [ValueError] its [try] guards against cannot arise. *)
Definition sliding_windows (image : grid)
    : result (list Z * list Z * list Z * list Z) :=
  rbind (lane_bases image) (fun bases =>
  let st := window_loop image (fst bases) (snd bases) in
  let nz := nonzero image in
  let left_inds := concat (left_lane_inds st) in
  let right_inds := concat (right_lane_inds st) in
  Ok (take_inds (snd nz) left_inds, take_inds (fst nz) left_inds,
      take_inds (snd nz) right_inds, take_inds (fst nz) right_inds)).

(** ** Numbers of the fit *)

(** The coefficients of [x = a*y^2 + b*y + c], highest power first, as
    [np.polyfit] returns them and as the list [left_fit] holds them. *)
Record fit : Type := Fit { fa : Q; fb : Q; fc : Q }.

Definition ym_per_pix : Q := 30 / 720.
Definition xm_per_pix : Q := (37 # 10) / 700.

Definition Qltb (x y : Q) : bool := negb (Qle_bool y x).

(** [f[0]*y**2 + f[1]*y + f[2]] *)
Definition poly_at (f : fit) (y : Q) : Q := (fa f * (y * y) + fb f * y + fc f)%Q.

Definition polyval (f : fit) (ys : list Q) : list Q := map (poly_at f) ys.

(** [left_fit == [0,0,0]] *)
Definition is_zero_fit (f : fit) : bool :=
  Qeq_bool (fa f) 0 && Qeq_bool (fb f) 0 && Qeq_bool (fc f) 0.

(** [np.linspace(0, H-1, H)]: the numbers 0, 1, ..., H-1. *)
Definition linspace0 (H : Z) : list Q :=
  map (fun i => inject_Z (Z.of_nat i)) (seq 0 (Z.to_nat H)).

(** [np.max]; [ValueError] on an empty array. *)
Definition Qmaxb (x y : Q) : Q := if Qle_bool x y then y else x.

Definition np_max (l : list Q) : result Q :=
  match l with
  | [] => Raise ValueError
  | y :: rest => Ok (fold_left Qmaxb rest y)
  end.

(** A float: a finite number, an infinity with its sign, or a NaN.  A finite
    value is the exact rational; a result whose magnitude reaches
    [float_limit] overflows to an infinity. *)
Inductive float : Type :=
| Fin (q : Q)
| Inf (negative : bool)
| NaN.

(** The least magnitude that rounds to an infinity: halfway between the
    largest binary64 number, [2^1024 - 2^971], and [2^1024]. *)
Definition float_limit : Q := inject_Z (2 ^ 1024 - 2 ^ 970).

Definition in_range (q : Q) : bool := Qltb (Qabs q) float_limit.

(** The float in which an operation delivers the real result [q]. *)
Definition fl (q : Q) : float := if in_range q then Fin q else Inf (Qltb q 0).

Definition fmul (x y : float) : float :=
  match x, y with
  | Fin p, Fin q => fl (p * q)
  | Fin p, Inf s | Inf s, Fin p =>
      if Qeq_bool p 0 then NaN else Inf (xorb s (Qltb p 0))
  | Inf s, Inf t => Inf (xorb s t)
  | _, _ => NaN
  end.

Definition fadd (x y : float) : float :=
  match x, y with
  | Fin p, Fin q => fl (p + q)
  | Fin _, Inf s | Inf s, Fin _ => Inf s
  | Inf s, Inf t => if Bool.eqb s t then Inf s else NaN
  | _, _ => NaN
  end.

(** [np.absolute] *)
Definition fabs (x : float) : float :=
  match x with
  | Fin p => Fin (Qabs p)
  | Inf _ => Inf false
  | NaN => NaN
  end.

(** [x / y] on NumPy floats, which raises nothing: a zero divisor (a positive
    zero, as an absolute value is) gives an infinity, or a NaN for [0 / 0]. *)
Definition fdiv (x y : float) : float :=
  match x, y with
  | Fin p, Fin q =>
      if Qeq_bool q 0
      then if Qeq_bool p 0 then NaN else Inf (Qltb p 0)
      else fl (p / q)
  | Fin _, Inf _ => Fin 0
  | Inf s, Fin q => Inf (xorb s (Qltb q 0))
  | _, _ => NaN
  end.

(** [x // d] on floats, for a finite non-zero [d]: the floor of the quotient,
    still a float; of an infinity it is a NaN. *)
Definition ffloordiv (x : float) (d : Q) : float :=
  match x with
  | Fin p => Fin (inject_Z (Qfloor (p / d)))
  | Inf _ => NaN
  | NaN => NaN
  end.

(** Truncation towards zero, as [int()] and [np.int_] do it. *)
Definition Qtrunc (q : Q) : Z := Z.quot (Qnum q) (Zpos (Qden q)).

(** [np.int(x)] is Python's [int(x)]: it raises [OverflowError] on an
    infinity and [ValueError] on a NaN. *)
Definition py_int (x : float) : result Z :=
  match x with
  | Fin p => Ok (Qtrunc p)
  | Inf _ => Raise OverflowError
  | NaN => Raise ValueError
  end.

(** [x[-1]] *)
Definition last_elem (l : list Q) : result Q :=
  match last l with
  | Some x => Ok x
  | None => Raise IndexError
  end.

(** ** Numbers of the index arithmetic *)

(** An entry of an array of 64-bit integers, or of an array of floats.  The
    indices that [nonzero] returns are of the first kind. *)
Inductive number : Type :=
| Int64 (z : Z)
| Float64 (q : Q).

(** Two's complement wrap-around of a 64-bit result. *)
Definition wrap64 (z : Z) : Z := (z + 2 ^ 63) mod 2 ^ 64 - 2 ^ 63.

(** An entry of the Python list of coefficients: a Python [int] when the value
    is an integer (taken to fit 64 bits), a [float] otherwise. *)
Definition coefficient (q : Q) : number :=
  let r := Qred q in
  if (Qden r =? 1)%positive then Int64 (Qnum r) else Float64 q.

Definition to_float (a : number) : Q :=
  match a with
  | Int64 z => inject_Z z
  | Float64 q => q
  end.

(** Integers stay integers and wrap; an operation with a float is a float. *)
Definition nmul (a b : number) : number :=
  match a, b with
  | Int64 x, Int64 y => Int64 (wrap64 (x * y))
  | _, _ => Float64 (to_float a * to_float b)
  end.

Definition nadd (a b : number) : number :=
  match a, b with
  | Int64 x, Int64 y => Int64 (wrap64 (x + y))
  | _, _ => Float64 (to_float a + to_float b)
  end.

Definition nsub (a b : number) : number :=
  match a, b with
  | Int64 x, Int64 y => Int64 (wrap64 (x - y))
  | _, _ => Float64 (to_float a - to_float b)
  end.

Definition nlt (a b : number) : bool :=
  match a, b with
  | Int64 x, Int64 y => x <? y
  | _, _ => Qltb (to_float a) (to_float b)
  end.

(** The width of the warm-start search on each side of the prior curve. *)
Definition search_margin : Z := 60.

(** ** The heap, the globals and the monad *)

Inductive ndarray : Type :=
| Grid (g : list (list Z))
| Image3 (c : list (list (Z * Z * Z))).

Record world : Type := World {
  heap : gmap nat ndarray;
  g_left_fit : option fit;
  g_right_fit : option fit;
  g_binary_warped : option nat;
  stdout : list string
}.

Definition M (A : Type) : Type := world -> result A * world.

Definition ret {A : Type} (a : A) : M A := fun w => (Ok a, w).

Definition raise {A : Type} (e : exn) : M A := fun w => (Raise e, w).

Definition lift {A : Type} (r : result A) : M A := fun w => (r, w).

Definition bind {A B : Type} (m : M A) (k : A -> M B) : M B :=
  fun w =>
    match m w with
    | (Ok a, w') => k a w'
    | (Raise e, w') => (Raise e, w')
    end.

Declare Scope lane_scope.
Delimit Scope lane_scope with lane.
Notation "'let*' x ':=' m 'in' k" := (bind m (fun x => k))
  (at level 10, x pattern, m at level 100, k at level 200) : lane_scope.
Notation "m ';;' k" := (bind m (fun _ => k))
  (at level 100, right associativity) : lane_scope.

(** [try: m except e: handler] *)
Definition try_except {A : Type} (m : M A) (e : exn) (handler : M A) : M A :=
  fun w =>
    match m w with
    | (Raise e', w') => if decide (e' = e) then handler w' else (Raise e', w')
    | ok => ok
    end.

Definition set_heap (h : gmap nat ndarray) (w : world) : world :=
  {| heap := h; g_left_fit := g_left_fit w; g_right_fit := g_right_fit w;
     g_binary_warped := g_binary_warped w; stdout := stdout w |}.

(** Reading an array through its reference. *)
Definition load_grid (l : nat) : M (list (list Z)) :=
  fun w =>
    match heap w !! l with
    | Some (Grid g) => (Ok g, w)
    | _ => (Raise TypeError, w)
    end.

(** A new array. *)
Definition alloc (v : ndarray) : M nat :=
  fun w =>
    let l := fresh (dom (heap w)) in
    (Ok l, set_heap (<[l := v]> (heap w)) w).

(** An in-place update of a three-channel image. *)
Definition update_image3 (l : nat)
    (f : list (list (Z * Z * Z)) -> list (list (Z * Z * Z))) : M unit :=
  fun w =>
    match heap w !! l with
    | Some (Image3 c) => (Ok tt, set_heap (<[l := Image3 (f c)]> (heap w)) w)
    | _ => (Raise TypeError, w)
    end.

(** Reading a global name: [NameError] when it is not bound. *)
Definition read_global {A : Type} (name : world -> option A) : M A :=
  fun w =>
    match name w with
    | Some v => (Ok v, w)
    | None => (Raise NameError, w)
    end.

Definition assign_fits (l r : fit) : M unit :=
  fun w =>
    (Ok tt,
     {| heap := heap w; g_left_fit := Some l; g_right_fit := Some r;
        g_binary_warped := g_binary_warped w; stdout := stdout w |}).

Definition print (s : string) : M unit :=
  fun w =>
    (Ok tt,
     {| heap := heap w; g_left_fit := g_left_fit w; g_right_fit := g_right_fit w;
        g_binary_warped := g_binary_warped w; stdout := stdout w ++ [s] |}).

(** [np.dstack((image, image, image))*255] on 8-bit pixels. *)
Definition dstack255 (image : list (list Z)) : list (list (Z * Z * Z)) :=
  map (map (fun v => let p := (v * 255) mod 256 in (p, p, p))) image.

(** The outline [hstack((window1, flipud(window2)))], converted by [np.int_]. *)
Definition outline (x1 x2 ploty : list Q) : list (Z * Z) :=
  map (fun p => (Qtrunc (fst p), Qtrunc (snd p)))
      (zip x1 ploty ++ reverse (zip x2 ploty)).

(** ** The functions of the notebook *)

Section Core.

(** [np.polyfit(x, y, 2)] on one-dimensional arrays. *)
Variable polyfit : list Q -> list Q -> result fit.

(** The floating-point power [x ** 1.5]. *)
Variable pow15 : Q -> Q.

(** What [cv2.fillPoly(img, [pts], color)] leaves in [img]. *)
Variable fillPoly :
  list (list (Z * Z * Z)) -> list (Z * Z) -> Z * Z * Z -> list (list (Z * Z * Z)).

(** Camera frames, and the chain [undistort], [colorGradient],
    [perspectiveTransform] that turns one into a new binary top-down array. *)
Variable camera : Type.
Variable birdseye : camera -> list (list Z).

Local Open Scope lane_scope.

Definition windowHistograms (image : nat)
    : M (list Z * list Z * list Z * list Z) :=
  let* im := load_grid image in
  lift (sliding_windows im).

(** The warm-start margin. *)
Definition poly_margin : Q := inject_Z search_margin.

(** [f[0]*(nonzeroy**2) + f[1]*nonzeroy + f[2]] and the two comparisons with
    [nonzerox], element by element. *)
Definition near_poly (f : fit) (nonzeroy nonzerox : list Z) : list bool :=
  zip_with
    (fun x y =>
       let m :=
         nadd (nadd (nmul (coefficient (fa f)) (nmul (Int64 y) (Int64 y)))
                    (nmul (coefficient (fb f)) (Int64 y)))
              (coefficient (fc f)) in
       nlt (Int64 x) (nadd m (Int64 search_margin))
       && nlt (nsub m (Int64 search_margin)) (Int64 x))
    nonzerox nonzeroy.

(** The pixels are read from the global [binary_warped]; the parameter
    [image] is not used. *)
Definition searchAroundPoly (image : nat) (left_fit right_fit : fit)
    : M (list Z * list Z * list Z * list Z) :=
  let* binary_warped := read_global g_binary_warped in
  let* bw := load_grid binary_warped in
  let nonzeroy := fst (nonzero bw) in
  let nonzerox := snd (nonzero bw) in
  let left_lane_inds := near_poly left_fit nonzeroy nonzerox in
  let right_lane_inds := near_poly right_fit nonzeroy nonzerox in
  ret (take_mask nonzerox left_lane_inds, take_mask nonzeroy left_lane_inds,
       take_mask nonzerox right_lane_inds, take_mask nonzeroy right_lane_inds).

Definition scale (k : Q) (l : list Z) : list Q := map (fun v => (inject_Z v * k)%Q) l.

Definition fit_poly (H : Z) (leftx lefty rightx righty : list Z)
    : M (list Q * list Q * fit * fit * list Q) :=
  let* left_fit := lift (polyfit (map inject_Z lefty) (map inject_Z leftx)) in
  let* right_fit := lift (polyfit (map inject_Z righty) (map inject_Z rightx)) in
  let ploty := linspace0 H in
  let* fitx :=
    try_except
      (ret (polyval left_fit ploty, polyval right_fit ploty))
      TypeError
      (print "The function failed to fit a line!" ;;
       let dummy := map (fun y => (1 * (y * y) + 1 * y)%Q) ploty in
       ret (dummy, dummy)) in
  let* left_fit_rw :=
    lift (polyfit (scale ym_per_pix lefty) (scale xm_per_pix leftx)) in
  let* right_fit_rw :=
    lift (polyfit (scale ym_per_pix righty) (scale xm_per_pix rightx)) in
  ret (fst fitx, snd fitx, left_fit_rw, right_fit_rw, ploty).

(** [x ** 1.5] on floats. *)
Definition fpow15 (x : float) : float :=
  match x with
  | Fin p => if Qltb p 0 then NaN else fl (pow15 p)
  | Inf _ => Inf false
  | NaN => NaN
  end.

(** [((1 + (2*f[0]*y_eval + f[1])**2)**1.5) / np.absolute(2*f[0])], one
    floating-point operation after the other; the square is a product. *)
Definition curverad (f : fit) (y_eval : Q) : float :=
  let two_a := fmul (Fin 2) (Fin (fa f)) in
  let slope := fadd (fmul two_a (Fin y_eval)) (Fin (fb f)) in
  fdiv (fpow15 (fadd (Fin 1) (fmul slope slope))) (fabs two_a).

Definition measure_curvature_real (ploty : list Q) (left_fit right_fit : fit)
    : M Z :=
  let* y_eval := lift (np_max ploty) in
  let left_curverad := curverad left_fit y_eval in
  let right_curverad := curverad right_fit y_eval in
  lift (py_int (ffloordiv (fadd left_curverad right_curverad) 2)).

(** The margin of the drawn bands. *)
Definition draw_margin : Q := 30.

Definition detectLane (image : nat) (left_fit right_fit : fit)
    : M (nat * fit * fit * Z * Q) :=
  let* (leftx, lefty, rightx, righty) :=
    (if is_zero_fit left_fit && is_zero_fit right_fit
     then windowHistograms image
     else searchAroundPoly image left_fit right_fit) in
  let* im := load_grid image in
  let* (left_fitx, right_fitx, left_fit_rw, right_fit_rw, ploty) :=
    fit_poly (shape0 im) leftx lefty rightx righty in
  let* curvature := measure_curvature_real ploty left_fit_rw right_fit_rw in
  let* left_bottom := lift (last_elem left_fitx) in
  let* right_bottom := lift (last_elem right_fitx) in
  let offset := ((640 - (left_bottom + right_bottom) / 2) * xm_per_pix)%Q in
  let* out_img := alloc (Image3 (dstack255 im)) in
  let shift d := map (fun x => (x + d)%Q) in
  let left_line_pts :=
    outline (shift (- draw_margin)%Q left_fitx) (shift draw_margin left_fitx) ploty in
  let right_line_pts :=
    outline (shift (- draw_margin)%Q right_fitx) (shift draw_margin right_fitx) ploty in
  let center_pts :=
    outline (shift draw_margin left_fitx) (shift (- draw_margin)%Q right_fitx) ploty in
  update_image3 out_img (fun c => fillPoly c left_line_pts (255, 0, 0)) ;;
  update_image3 out_img (fun c => fillPoly c right_line_pts (0, 0, 255)) ;;
  update_image3 out_img (fun c => fillPoly c center_pts (0, 255, 0)) ;;
  ret (out_img, left_fit, right_fit, curvature, offset).

(** [process_image] up to the call of [detectLane] and the assignment of its
    results to the globals; the overlay drawn afterwards is not modelled, the
    action returns what is handed to it. *)
Definition process_image (img : camera) : M (nat * Z * Q) :=
  let* transformed := alloc (Grid (birdseye img)) in
  let* left_fit := read_global g_left_fit in
  let* right_fit := read_global g_right_fit in
  let* (curve, left_fit', right_fit', curvature, offset) :=
    detectLane transformed left_fit right_fit in
  assign_fits left_fit' right_fit' ;;
  ret (curve, curvature, offset).

End Core.

(** ** Around the core: thresholding and the text overlay *)

Section Pipeline.

(** Camera frames in colour.  Of [colorGradient] the blur, the conversion to
    HLS and the Sobel derivative are library routines: [s_channel_of] is the
    S channel of the blurred frame and [scaled_sobel_of] the derivative of
    its L channel along x, scaled to 8 bits; both have the shape of the
    frame. *)
Variable colour_frame : Type.
Variable s_channel_of : colour_frame -> list (list Z).
Variable scaled_sobel_of : colour_frame -> list (list Z).

Definition in_thresh (thresh : Z * Z) (v : Z) : bool :=
  (fst thresh <=? v) && (v <=? snd thresh).

(** [b = np.zeros_like(a); b[(a >= lo) & (a <= hi)] = 1] *)
Definition threshold (thresh : Z * Z) (a : list (list Z)) : list (list Z) :=
  map (map (fun v => if in_thresh thresh v then 1 else 0)) a.

(** [c = np.zeros_like(s); c[(s == 1) | (sx == 1)] = 1] *)
Definition either_mask (s_binary sxbinary : list (list Z)) : list (list Z) :=
  zip_with (zip_with (fun s sx => if (s =? 1) || (sx =? 1) then 1 else 0))
    s_binary sxbinary.

(** The contents of the new array [colorGradient] returns; the thresholds
    default to [s_thresh=(170, 255)] and [sx_thresh=(21, 100)]. *)
Definition colorGradient (img : colour_frame) (s_thresh sx_thresh : Z * Z)
    : list (list Z) :=
  let s_channel := s_channel_of img in
  let scaled_sobel := scaled_sobel_of img in
  let sxbinary := threshold sx_thresh scaled_sobel in
  let s_binary := threshold s_thresh s_channel in
  either_mask s_binary sxbinary.

(** The format [{offset:.2}] of a float and what [cv2.putText] leaves in the
    image, for the font, scale, colour and line type [addText] fixes. *)
Variable format2 : Q -> string.
Variable putText :
  list (list (Z * Z * Z)) -> string -> Z * Z -> list (list (Z * Z * Z)).

(** [text1] and [text2] of [addText]. *)
Definition curvature_text (curvature : Z) : string :=
  "Radius of Curvature = " +:+ pretty curvature +:+ "m".

Definition position_text (offset : Q) : string :=
  if Qeq_bool offset 0 then "Vehicle is centered"
  else if Qltb offset 0
       then "Vehicle is " +:+ format2 (Qabs offset) +:+ "m left of center"
       else "Vehicle is " +:+ format2 offset +:+ "m right of center".

(** [addText] writes both lines on the image it is given, in place. *)
Definition addText (img : nat) (curvature : Z) (offset : Q) : M unit :=
  (update_image3 img (fun c => putText c (curvature_text curvature) (50, 50)) ;;
   update_image3 img (fun c => putText c (position_text offset) (50, 100)))%lane.

End Pipeline.

(** ** Exact models of the library routines, for closed examples *)

(** Least squares of degree two in exact arithmetic, by the normal equations
    and Cramer's rule: the numbers [np.polyfit] approximates.  As the library
    does, it raises [TypeError] on an empty vector or on vectors of different
    lengths.  When all abscissae are one non-zero number [x0] the system has
    rank one and the library returns, with a [RankWarning], the solution of
    minimum norm of the system with normalised columns, which is
    [m/(3*x0^2), m/(3*x0), m/3] for the mean [m] of the ordinates.  When all
    abscissae are zero the normalisation divides by zero and the library
    raises [LinAlgError].  With exactly two distinct abscissae the answer of
    the library is not rational; this model does not cover that case and
    reports [LinAlgError] there as well. *)
Definition qsum (l : list Q) : Q := fold_right Qplus 0%Q l.

Definition moment (k : nat) (x y : list Q) : Q :=
  qsum (zip_with (fun xi yi => (xi ^ Z.of_nat k * yi)%Q) x y).

Definition det3 (a b c d e f g h i : Q) : Q :=
  (a * (e * i - f * h) - b * (d * i - f * g) + c * (d * h - e * g))%Q.

Definition all_equal_to (x0 : Q) (x : list Q) : bool := forallb (Qeq_bool x0) x.

Definition polyfit_exact (x y : list Q) : result fit :=
  match x with
  | [] => Raise TypeError
  | x0 :: _ =>
      if negb (length x =? length y)%nat then Raise TypeError
      else
        let ones := map (fun _ => 1%Q) x in
        let s k := moment k x ones in
        let t k := moment k x y in
        let D := det3 (s 4%nat) (s 3%nat) (s 2%nat)
                      (s 3%nat) (s 2%nat) (s 1%nat)
                      (s 2%nat) (s 1%nat) (s 0%nat) in
        if Qeq_bool D 0 then
          if all_equal_to x0 x && negb (Qeq_bool x0 0) then
            let m := (qsum y / inject_Z (Z.of_nat (length y)))%Q in
            Ok (Fit (Qred (m / (3 * x0 * x0))) (Qred (m / (3 * x0))) (Qred (m / 3)))
          else Raise LinAlgError
        else
          Ok (Fit
                (Qred (det3 (t 2%nat) (s 3%nat) (s 2%nat)
                            (t 1%nat) (s 2%nat) (s 1%nat)
                            (t 0%nat) (s 1%nat) (s 0%nat) / D))
                (Qred (det3 (s 4%nat) (t 2%nat) (s 2%nat)
                            (s 3%nat) (t 1%nat) (s 1%nat)
                            (s 2%nat) (t 0%nat) (s 0%nat) / D))
                (Qred (det3 (s 4%nat) (s 3%nat) (t 2%nat)
                            (s 3%nat) (s 2%nat) (t 1%nat)
                            (s 2%nat) (s 1%nat) (t 0%nat) / D)))
  end.

(** [x ** 1.5] as [x * sqrt x], the root taken to 53 binary places. *)
Definition sqrt53 (x : Q) : Q :=
  Z.sqrt (Qnum x * 2 ^ 106 / Zpos (Qden x)) # (2 ^ 53).

Definition pow15_approx (x : Q) : Q := Qred (x * sqrt53 x).

(** Filling a polygon by the even-odd rule. *)
Definition crosses (x y : Z) (p q : Z * Z) : bool :=
  let '(x1, y1) := p in
  let '(x2, y2) := q in
  ((y1 <=? y) && (y <? y2) && ((x - x1) * (y2 - y1) <? (y - y1) * (x2 - x1)))
  || ((y2 <=? y) && (y <? y1) && ((y - y1) * (x2 - x1) <? (x - x1) * (y2 - y1))).

Definition inside (pts : list (Z * Z)) (x y : Z) : bool :=
  match pts with
  | [] => false
  | p0 :: rest =>
      Nat.odd (length (filter (fun e => crosses x y (fst e) (snd e) = true)
                         (zip pts (rest ++ [p0]))))
  end.

Definition fill_evenodd (img : list (list (Z * Z * Z))) (pts : list (Z * Z))
    (color : Z * Z * Z) : list (list (Z * Z * Z)) :=
  imap (fun y row =>
          imap (fun x old =>
                  if inside pts (Z.of_nat x) (Z.of_nat y) then color else old)
               row)
       img.

(** ** Closed inputs *)

(** An empty heap, the globals as the notebook initialises them
    ([left_fit = [0,0,0]], [right_fit = [0,0,0]], no [binary_warped]). *)
Definition zero_fit : fit := Fit 0 0 0.

Definition fresh_world : world :=
  {| heap := ∅; g_left_fit := Some zero_fit; g_right_fit := Some zero_fit;
     g_binary_warped := None; stdout := [] |}.

(** A row of width [W] with ones in the columns [lo], ..., [hi - 1]. *)
Definition row_with (W lo hi : nat) : list Z :=
  map (fun x => if (lo <=? x)%nat && (x <? hi)%nat then 1 else 0) (seq 0 W).

(** Nine rows of width four; pixels at (x, y) = (1, 6), (3, 7), (2, 8). *)
Definition three_pixels : list (list Z) :=
  replicate 6 (row_with 4 0 0) ++ [row_with 4 1 2; row_with 4 3 4; row_with 4 2 3].

(** Nine rows of width four, all zero. *)
Definition zero_frame : list (list Z) := replicate 9 (row_with 4 0 0).

(** Nine rows of width four; one pixel at (x, y) = (1, 8). *)
Definition one_pixel : list (list Z) :=
  replicate 8 (row_with 4 0 0) ++ [row_with 4 1 2].

(** Nine rows of width [W]; the bottom row has ones in the columns below [n]. *)
Definition bottom_run (W n : nat) : list (list Z) :=
  replicate 8 (row_with W 0 0) ++ [row_with W 0 n].

Definition straight : fit := Fit 0 0 500.

(** Stand-ins for the text routines in closed examples: the number is shown
    by its integer part, and the text leaves a white pixel at its origin. *)
Definition format_floor (q : Q) : string := pretty (Qfloor q).

Definition putText_mark (c : list (list (Z * Z * Z))) (text : string) (org : Z * Z)
    : list (list (Z * Z * Z)) :=
  alter (fun row => <[Z.to_nat (fst org) := (255, 255, 255)]> row)
    (Z.to_nat (snd org)) c.

(** A world whose only array is a black colour image of two rows and two
    columns, at location 0. *)
Definition world_with_image : world :=
  set_heap {[ 0%nat := Image3 (replicate 2 (replicate 2 (0, 0, 0))) ]} fresh_world.

(** Eight rows of width four, the two middle columns on. *)
Definition short_frame : list (list Z) := replicate 8 (row_with 4 1 3).

(** Nine rows of width one, all on. *)
Definition narrow_frame : list (list Z) := replicate 9 (row_with 1 0 1).

(** The initial world with one binary frame, at location 0. *)
Definition world_with (image : list (list Z)) : world :=
  set_heap {[ 0%nat := Grid image ]} fresh_world.

(** A world with two frames in which [binary_warped] is bound to the second. *)
Definition world_with_global (image other : list (list Z)) : world :=
  {| heap := {[ 0%nat := Grid image; 1%nat := Grid other ]};
     g_left_fit := Some zero_fit; g_right_fit := Some zero_fit;
     g_binary_warped := Some 1%nat; stdout := [] |}.

(** The instances of the per-frame functions used in the closed examples. *)
Definition detectLane_exact : nat -> fit -> fit -> M (nat * fit * fit * Z * Q) :=
  detectLane polyfit_exact pow15_approx fill_evenodd.

Definition process_image_exact : list (list Z) -> M (nat * Z * Q) :=
  process_image polyfit_exact pow15_approx fill_evenodd (list (list Z)) (fun img => img).

(** ** Notions used in the statements *)

(** All rows have the width [W], and there is at least one row. *)
Definition rectangular (W : nat) (image : list (list Z)) : Prop :=
  image <> [] /\ Forall (fun row => length row = W) image.

(** The sum of column [x] over the rows of the bottom half of the image. *)
Definition bottom_half_sum (image : list (list Z)) (x : nat) : Z :=
  zsum (map (fun row => nth x row 0) (drop (Z.to_nat (shape0 image / 2)) image)).

(** [k] is the lowest index at which [l] takes its maximum. *)
Definition first_max (l : list Z) (k : nat) : Prop :=
  exists m,
    l !! k = Some m
    /\ (forall j v, l !! j = Some v -> v <= m)
    /\ (forall j v, (j < k)%nat -> l !! j = Some v -> v < m).

(** The radius [(1 + (2*a*y + b)^2)^1.5 / |2*a|], with the power of the
    floating-point library. *)
Definition radius (pow15 : Q -> Q) (f : fit) (y : Q) : Q :=
  (pow15 (1 + (2 * fa f * y + fb f) * (2 * fa f * y + fb f)) / Qabs (2 * fa f))%Q.

(** Every number the radius goes through is within the range of the finite
    floats: [2*a], [2*a*y], the slope [2*a*y + b], its square, one more, the
    power and the quotient. *)
Definition finite_radius (pow15 : Q -> Q) (f : fit) (y : Q) : bool :=
  let slope := (2 * fa f * y + fb f)%Q in
  in_range (2 * fa f)%Q && in_range (2 * fa f * y)%Q && in_range slope
  && in_range (slope * slope)%Q && in_range (1 + slope * slope)%Q
  && in_range (pow15 (1 + slope * slope)%Q) && in_range (radius pow15 f y).

Definition is_finite (x : float) : bool :=
  match x with
  | Fin _ => true
  | _ => false
  end.

(** The search [detectLane] selects: cold start while both fits are the
    initial [[0,0,0]], warm start otherwise. *)
Definition search (image : nat) (left_fit right_fit : fit)
    : M (list Z * list Z * list Z * list Z) :=
  if is_zero_fit left_fit && is_zero_fit right_fit
  then windowHistograms image
  else searchAroundPoly image left_fit right_fit.

(** The on pixels [(x, y)] of a frame that lie strictly within the warm-start
    margin of the curve [f]. *)
Definition within_margin (f : fit) (cell : Z * Z) : bool :=
  Qltb (inject_Z (fst cell)) (poly_at f (inject_Z (snd cell)) + poly_margin)
  && Qltb (poly_at f (inject_Z (snd cell)) - poly_margin) (inject_Z (fst cell)).

Definition on_pixels (image : list (list Z)) : list (Z * Z) :=
  zip (snd (nonzero image)) (fst (nonzero image)).

Definition pixels_near (f : fit) (image : list (list Z)) : list (Z * Z) :=
  filter (fun cell => within_margin f cell = true) (on_pixels image).

(** The coefficients are integers, and over the rows of a frame of [H] rows
    the curve and its margin stay below [2^53]: the index arithmetic is then
    exact, in 64-bit integers as in floats. *)
Definition exact_fit (f : fit) (H : Z) : Prop :=
  exists a b c : Z,
    (fa f == inject_Z a)%Q /\ (fb f == inject_Z b)%Q /\ (fc f == inject_Z c)%Q
    /\ Z.abs a * (H * H) + Z.abs b * H + Z.abs c + search_margin < 2 ^ 53.

(** [(x, y)] is an on pixel of the frame: inside it, with a non-zero value. *)
Definition on_pixel (image : list (list Z)) (x y : Z) : Prop :=
  0 <= x /\ 0 <= y
  /\ exists row v,
       image !! Z.to_nat y = Some row /\ row !! Z.to_nat x = Some v /\ v <> 0.

(** The state of the window loop when band [k] starts: the bands 0, ...,
    [k - 1] have been searched. *)
Definition band_state (image : list (list Z)) (bases : Z * Z) (k : nat) : windows :=
  fold_left
    (window_step (shape0 image) (shape0 image / nwindows)
       (fst (nonzero image)) (snd (nonzero image)))
    (take k window_range)
    {| leftx_current := fst bases; rightx_current := snd bases;
       left_lane_inds := []; right_lane_inds := [] |}.

(** The rows of band [k], counted from the bottom of the frame. *)
Definition in_band (image : list (list Z)) (k : nat) (y : Z) : Prop :=
  shape0 image - (Z.of_nat k + 1) * (shape0 image / nwindows) <= y
  /\ y < shape0 image - Z.of_nat k * (shape0 image / nwindows).

(** The columns of a window around a centre. *)
Definition in_window (centre x : Z) : Prop :=
  centre - window_margin <= x /\ x < centre + window_margin.

(** * Properties *)

(** ** The histogram and its peaks *)

Lemma sum_axis0_length (W : nat) (rows : list (list Z)) :
  Forall (fun row => length row = W) rows -> length (sum_axis0 W rows) = W.
Proof.
  induction 1 as [|row rest Hrow _ IH]; simpl.
  - apply length_replicate.
  - rewrite length_zip_with, Hrow, IH. lia.
Qed.

Lemma sum_axis0_lookup (W : nat) (rows : list (list Z)) (x : nat) :
  Forall (fun row => length row = W) rows -> (x < W)%nat ->
  sum_axis0 W rows !! x = Some (zsum (map (fun row => nth x row 0) rows)).
Proof.
  intros Hrows Hx. induction Hrows as [|row rest Hrow _ IH]; simpl.
  - by apply lookup_replicate_2.
  - rewrite lookup_zip_with, IH. rewrite nth_lookup.
    destruct (lookup_lt_is_Some_2 row x) as [v Hv]; [lia|].
    by rewrite Hv.
Qed.

Lemma argmax_from_first_max (pre l : list Z) (best : nat) (bv : Z) :
  pre !! best = Some bv ->
  (forall j v, pre !! j = Some v -> v <= bv) ->
  (forall j v, (j < best)%nat -> pre !! j = Some v -> v < bv) ->
  first_max (pre ++ l) (argmax_from best bv (length pre) l).
Proof.
  revert pre best bv. induction l as [|v rest IH]; intros pre best bv Hb Hle Hlt; simpl.
  - rewrite app_nil_r. by exists bv.
  - replace (pre ++ v :: rest) with ((pre ++ [v]) ++ rest) by by rewrite <- app_assoc.
    replace (S (length pre)) with (length (pre ++ [v])) by (rewrite length_app; simpl; lia).
    destruct (bv <? v) eqn:Hcmp.
    + apply Z.ltb_lt in Hcmp. apply IH.
      * rewrite lookup_app_r by lia. by rewrite Nat.sub_diag.
      * intros j u Hj. destruct (decide (j < length pre)%nat) as [Hin|Hout].
        -- rewrite lookup_app_l in Hj by done. specialize (Hle _ _ Hj). lia.
        -- rewrite lookup_app_r in Hj by lia.
           destruct (j - length pre)%nat; simpl in Hj; [|done].
           injection Hj as ->. lia.
      * intros j u Hj Hu. rewrite lookup_app_l in Hu by lia. specialize (Hle _ _ Hu). lia.
    + apply Z.ltb_ge in Hcmp.
      assert (Hbest : (best < length pre)%nat) by by eapply lookup_lt_Some.
      apply IH.
      * by rewrite lookup_app_l.
      * intros j u Hj. destruct (decide (j < length pre)%nat) as [Hin|Hout].
        -- rewrite lookup_app_l in Hj by done. eauto.
        -- rewrite lookup_app_r in Hj by lia.
           destruct (j - length pre)%nat; simpl in Hj; [|done].
           injection Hj as ->. lia.
      * intros j u Hj Hu. rewrite lookup_app_l in Hu by lia. eauto.
Qed.

Lemma argmax_first_max (l : list Z) :
  l <> [] -> exists k : nat, argmax l = Ok (Z.of_nat k) /\ first_max l k.
Proof.
  destruct l as [|v rest]; [done|]. intros _. eexists. split; [reflexivity|].
  apply (argmax_from_first_max [v] rest 0 v).
  - done.
  - intros [|j] u Hu; simpl in Hu; [|done]. injection Hu as ->. lia.
  - intros j u Hj. lia.
Qed.

Lemma first_max_lt_length (l : list Z) (k : nat) :
  first_max l k -> (k < length l)%nat.
Proof. intros (m & Hm & _). by eapply lookup_lt_Some. Qed.

Lemma histogram_columns (W : nat) (image : list (list Z)) :
  rectangular W image ->
  length (histogram image) = W
  /\ forall x, (x < W)%nat -> histogram image !! x = Some (bottom_half_sum image x).
Proof.
  intros [Hne Hrows]. unfold histogram, bottom_half_sum.
  assert (HW : Z.to_nat (shape1 image) = W).
  { destruct image as [|row rest]; [done|]. simpl.
    inversion Hrows; subst. apply Nat2Z.id. }
  rewrite HW.
  assert (Hdrop : Forall (fun row => length row = W)
                    (drop (Z.to_nat (shape0 image / 2)) image))
    by by apply Forall_drop.
  split.
  - by apply sum_axis0_length.
  - intros x Hx. by apply sum_axis0_lookup.
Qed.

Lemma half_of_nat (W : nat) : Z.of_nat W / 2 = Z.of_nat (W / 2).
Proof. change 2 with (Z.of_nat 2). symmetry. apply Nat2Z.inj_div. Qed.

Lemma half_to_nat (W : nat) : Z.to_nat (Z.of_nat W / 2) = (W / 2)%nat.
Proof. rewrite half_of_nat. apply Nat2Z.id. Qed.

(** C7 (as the code has it): the initial lane centres of the cold-start
    search, for a frame at least two columns wide.  The histogram has one
    entry per column, the sum of that column over the bottom half of the
    frame; the left centre is the lowest index of the maximum of its left
    half, the right centre the lowest index of the maximum of its right half,
    counted from the left edge of the frame. *)
Theorem lane_bases_histogram_peaks (W : nat) (image : list (list Z)) :
  rectangular W image -> (2 <= W)%nat ->
  let hist := histogram image in
  let mid := (W / 2)%nat in
  let col := bottom_half_sum image in
  length hist = W
  /\ (forall x, (x < W)%nat -> hist !! x = Some (col x))
  /\ exists l r : nat,
       lane_bases image = Ok (Z.of_nat l, Z.of_nat r)
       /\ (l < mid)%nat /\ (mid <= r < W)%nat
       /\ (forall j, (j < mid)%nat -> col j <= col l)
       /\ (forall j, (j < l)%nat -> col j < col l)
       /\ (forall j, (mid <= j < W)%nat -> col j <= col r)
       /\ (forall j, (mid <= j < r)%nat -> col j < col r).
Proof.
  intros Hrect HW hist mid col.
  destruct (histogram_columns W image Hrect) as [Hlen Hcol].
  fold hist in Hlen, Hcol. fold col in Hcol.
  assert (Hmid : (1 <= mid < W)%nat).
  { subst mid. split.
    - apply Nat.div_le_lower_bound; lia.
    - apply Nat.div_lt; lia. }
  split; [done|]. split; [done|].
  destruct (argmax_first_max (take mid hist)) as (l & Hl & Hlmax).
  { intros Hnil. apply (f_equal length) in Hnil.
    rewrite length_take in Hnil. simpl in Hnil. lia. }
  destruct (argmax_first_max (drop mid hist)) as (k & Hk & Hkmax).
  { intros Hnil. apply (f_equal length) in Hnil.
    rewrite length_drop in Hnil. simpl in Hnil. lia. }
  pose proof (first_max_lt_length _ _ Hlmax) as Hlt_l.
  pose proof (first_max_lt_length _ _ Hkmax) as Hlt_k.
  rewrite length_take in Hlt_l. rewrite length_drop in Hlt_k.
  destruct Hlmax as (ml & Hml & Hml_le & Hml_lt).
  destruct Hkmax as (mk & Hmk & Hmk_le & Hmk_lt).
  rewrite lookup_take_lt in Hml by lia. rewrite Hcol in Hml by lia.
  injection Hml as <-.
  rewrite lookup_drop in Hmk. rewrite Hcol in Hmk by lia.
  injection Hmk as <-.
  exists l, (mid + k)%nat. repeat split.
  - unfold lane_bases. fold hist. rewrite Hlen, half_to_nat. fold mid.
    rewrite Hl, Hk. simpl. do 2 f_equal.
    rewrite half_of_nat. fold mid. lia.
  - lia.
  - lia.
  - lia.
  - intros j Hj. apply (Hml_le j). rewrite lookup_take_lt by lia. apply Hcol. lia.
  - intros j Hj. apply (Hml_lt j); [done|].
    rewrite lookup_take_lt by lia. apply Hcol. lia.
  - intros j Hj. apply (Hmk_le (j - mid)%nat). rewrite lookup_drop.
    replace (mid + (j - mid))%nat with j by lia. apply Hcol. lia.
  - intros j Hj. apply (Hmk_lt (j - mid)%nat); [lia|]. rewrite lookup_drop.
    replace (mid + (j - mid))%nat with j by lia. apply Hcol. lia.
Qed.

Lemma lane_bases_histogram_peaks_witness :
  let hist := histogram three_pixels in
  let col := bottom_half_sum three_pixels in
  length hist = 4%nat
  /\ (forall x, (x < 4)%nat -> hist !! x = Some (col x))
  /\ exists l r : nat,
       lane_bases three_pixels = Ok (Z.of_nat l, Z.of_nat r)
       /\ (l < 4 / 2)%nat /\ (4 / 2 <= r < 4)%nat
       /\ (forall j, (j < 4 / 2)%nat -> col j <= col l)
       /\ (forall j, (j < l)%nat -> col j < col l)
       /\ (forall j, (4 / 2 <= j < 4)%nat -> col j <= col r)
       /\ (forall j, (4 / 2 <= j < r)%nat -> col j < col r).
Proof.
  apply (lane_bases_histogram_peaks 4 three_pixels).
  - split; [discriminate | repeat constructor].
  - lia.
Defined.

(** C7, counterexample.  In a frame one column wide the midpoint is 0, the
    left half of the histogram is empty and [np.argmax] raises [ValueError]:
    no centre is computed. *)
Lemma one_column_counterexample :
  rectangular 1 narrow_frame
  /\ histogram narrow_frame = [5]
  /\ take (Z.to_nat (Z.of_nat (length (histogram narrow_frame)) / 2))
       (histogram narrow_frame) = []
  /\ lane_bases narrow_frame = Raise ValueError.
Proof.
  split; [split; [discriminate | repeat constructor]|].
  repeat split; vm_compute; reflexivity.
Qed.

(** ** Recentring of the search windows *)

Lemma take_inds_nonneg (arr : list Z) (inds : list nat) :
  Forall (fun x => 0 <= x) arr -> Forall (fun x => 0 <= x) (take_inds arr inds).
Proof.
  intros Harr. unfold take_inds. apply Forall_map, Forall_forall. intros i _.
  simpl. destruct (nth_in_or_default i arr 0) as [Hin | ->]; [|lia].
  rewrite Forall_forall in Harr. apply Harr. by apply list_elem_of_In.
Qed.

Lemma zsum_nonneg (xs : list Z) : Forall (fun x => 0 <= x) xs -> 0 <= zsum xs.
Proof. induction 1; simpl; lia. Qed.

(** The truncated mean of non-negative integers is the integer part of
    their mean. *)
Lemma int_mean_floor (xs : list Z) :
  Forall (fun x => 0 <= x) xs -> xs <> [] ->
  let n := Z.of_nat (length xs) in
  n * int_mean xs <= zsum xs < n * (int_mean xs + 1).
Proof.
  intros Hxs Hne n. unfold int_mean. fold n.
  assert (Hn : 0 < n) by (subst n; destruct xs; [done | simpl; lia]).
  pose proof (zsum_nonneg xs Hxs) as Hsum.
  rewrite Z.quot_div_nonneg by lia.
  pose proof (Z.div_mod (zsum xs) n ltac:(lia)) as Hdm.
  pose proof (Z.mod_pos_bound (zsum xs) n Hn) as Hmod.
  lia.
Qed.

(** C6 (as the code has it): in every band a side's centre is replaced by the
    integer part of the mean column of the pixels collected in that window
    when more than [minpix] = 30 pixels were collected, and is kept when 30
    or fewer were. *)
Theorem window_step_recenter (H window_height : Z) (nonzeroy nonzerox : list Z)
    (st : windows) (window : Z) :
  Forall (fun x => 0 <= x) nonzerox ->
  let good_left := window_left H window_height nonzeroy nonzerox st window in
  let good_right := window_right H window_height nonzeroy nonzerox st window in
  let st' := window_step H window_height nonzeroy nonzerox st window in
  let n_left := Z.of_nat (length good_left) in
  let n_right := Z.of_nat (length good_right) in
  (30 < n_left ->
     n_left * leftx_current st' <= zsum (take_inds nonzerox good_left)
       < n_left * (leftx_current st' + 1))
  /\ (n_left <= 30 -> leftx_current st' = leftx_current st)
  /\ (30 < n_right ->
        n_right * rightx_current st' <= zsum (take_inds nonzerox good_right)
          < n_right * (rightx_current st' + 1))
  /\ (n_right <= 30 -> rightx_current st' = rightx_current st).
Proof.
  intros Hnz good_left good_right st' n_left n_right.
  assert (Hmean : forall inds : list nat,
             30 < Z.of_nat (length inds) ->
             Z.of_nat (length inds) * int_mean (take_inds nonzerox inds)
               <= zsum (take_inds nonzerox inds)
               < Z.of_nat (length inds) * (int_mean (take_inds nonzerox inds) + 1)).
  { intros inds Hlen.
    pose proof (int_mean_floor (take_inds nonzerox inds)
                  (take_inds_nonneg _ _ Hnz)) as Hfl.
    unfold take_inds in Hfl at 2 3 5. rewrite length_map in Hfl.
    apply Hfl. destruct inds; [simpl in Hlen; lia | done]. }
  subst st'. unfold window_step; simpl.
  fold good_left good_right. fold n_left n_right. unfold minpix.
  split; [|split; [|split]].
  - intros Hn. apply Z.ltb_lt in Hn as Hb. rewrite Hb. by apply Hmean.
  - intros Hn. apply Z.ltb_ge in Hn as Hb. by rewrite Hb.
  - intros Hn. apply Z.ltb_lt in Hn as Hb. rewrite Hb. by apply Hmean.
  - intros Hn. apply Z.ltb_ge in Hn as Hb. by rewrite Hb.
Qed.

Lemma nonzero_columns_nonneg (image : list (list Z)) :
  Forall (fun x => 0 <= x) (snd (nonzero image)).
Proof. unfold nonzero; simpl. apply Forall_map, Forall_true. intros c. simpl. lia. Qed.

Lemma window_step_recenter_witness :
  let nzy := fst (nonzero (bottom_run 64 32)) in
  let nzx := snd (nonzero (bottom_run 64 32)) in
  let st := Windows 0 32 [] [] in
  let good_left := window_left 9 1 nzy nzx st 0 in
  let good_right := window_right 9 1 nzy nzx st 0 in
  let st' := window_step 9 1 nzy nzx st 0 in
  let n_left := Z.of_nat (length good_left) in
  let n_right := Z.of_nat (length good_right) in
  Forall (fun x => 0 <= x) nzx
  /\ (30 < n_left ->
        n_left * leftx_current st' <= zsum (take_inds nzx good_left)
          < n_left * (leftx_current st' + 1))
  /\ (n_left <= 30 -> leftx_current st' = leftx_current st)
  /\ (30 < n_right ->
        n_right * rightx_current st' <= zsum (take_inds nzx good_right)
          < n_right * (rightx_current st' + 1))
  /\ (n_right <= 30 -> rightx_current st' = rightx_current st).
Proof.
  split.
  - apply nonzero_columns_nonneg.
  - apply (window_step_recenter 9 1 (fst (nonzero (bottom_run 64 32)))
             (snd (nonzero (bottom_run 64 32))) (Windows 0 32 [] []) 0).
    apply nonzero_columns_nonneg.
Defined.

(** C6, counterexample.  With exactly 30 pixels in the bottom window (columns
    0 to 29 of the bottom row, mean 14.5) the left centre stays at the peak of
    the histogram, column 0: a count equal to [minpix] does not recentre.  With
    32 pixels (columns 0 to 31, mean 15.5) the centre becomes 15, the integer
    part of the mean and not the mean. *)
Lemma recenter_at_minpix_counterexample :
  (let image := bottom_run 60 30 in
   let nzy := fst (nonzero image) in
   let nzx := snd (nonzero image) in
   let st := Windows 0 30 [] [] in
   let good_left := window_left (shape0 image) (shape0 image / nwindows) nzy nzx st 0 in
   lane_bases image = Ok (leftx_current st, rightx_current st)
   /\ Z.of_nat (length good_left) = 30
   /\ minpix <= Z.of_nat (length good_left)
   /\ int_mean (take_inds nzx good_left) = 14
   /\ leftx_current
        (window_step (shape0 image) (shape0 image / nwindows) nzy nzx st 0) = 0)
  /\
  (let image := bottom_run 64 32 in
   let nzy := fst (nonzero image) in
   let nzx := snd (nonzero image) in
   let st := Windows 0 32 [] [] in
   let good_left := window_left (shape0 image) (shape0 image / nwindows) nzy nzx st 0 in
   lane_bases image = Ok (leftx_current st, rightx_current st)
   /\ Z.of_nat (length good_left) = 32
   /\ zsum (take_inds nzx good_left) = 496
   /\ leftx_current
        (window_step (shape0 image) (shape0 image / nwindows) nzy nzx st 0) = 15
   /\ 32 * 15 <> 496).
Proof. vm_compute. repeat split; discriminate. Qed.

(** ** The radius of curvature *)

Lemma fold_Qmaxb_spec (rest : list Q) (y : Q) :
  let m := fold_left Qmaxb rest y in
  m ∈ y :: rest /\ forall z, z ∈ y :: rest -> (z <= m)%Q.
Proof.
  revert y. induction rest as [|x rest IH]; intros y; simpl.
  - split; [by left|]. intros z Hz. apply list_elem_of_singleton in Hz as ->.
    apply Qle_refl.
  - destruct (IH (Qmaxb y x)) as [Hin Hmax]. split.
    + apply elem_of_cons in Hin as [Heq | Hin].
      * rewrite Heq. unfold Qmaxb. destruct (Qle_bool y x).
        -- right. by left.
        -- by left.
      * by do 2 right.
    + intros z Hz.
      assert (Hyx : (y <= Qmaxb y x)%Q /\ (x <= Qmaxb y x)%Q).
      { unfold Qmaxb. destruct (Qle_bool y x) eqn:Hle.
        - apply Qle_bool_iff in Hle. split; [done | apply Qle_refl].
        - split; [apply Qle_refl|]. apply Qlt_le_weak, Qnot_le_lt.
          intros Hle'. apply Qle_bool_iff in Hle'. congruence. }
      destruct Hyx as [Hy Hx].
      assert (Htop : (Qmaxb y x <= fold_left Qmaxb rest (Qmaxb y x))%Q)
        by (apply Hmax; by left).
      apply elem_of_cons in Hz as [-> | Hz].
      * by eapply Qle_trans.
      * apply elem_of_cons in Hz as [-> | Hz].
        -- by eapply Qle_trans.
        -- apply Hmax. by right.
Qed.

Lemma np_max_spec (ploty : list Q) :
  ploty <> [] ->
  exists y_eval,
    np_max ploty = Ok y_eval
    /\ y_eval ∈ ploty
    /\ forall y, y ∈ ploty -> (y <= y_eval)%Q.
Proof.
  destruct ploty as [|y rest]; [done|]. intros _.
  exists (fold_left Qmaxb rest y). split; [done|]. apply fold_Qmaxb_spec.
Qed.

Lemma Qabs_double_zero (a : Q) : Qeq_bool (Qabs (2 * a)) 0 = Qeq_bool a 0.
Proof. destruct a as [[|n|n] d]; reflexivity. Qed.

Lemma Qtrunc_inject_Z (z : Z) : Qtrunc (inject_Z z) = z.
Proof. unfold Qtrunc; simpl. apply Z.quot_1_r. Qed.

(** *** Floats that leave the finite numbers *)

Lemma in_range_comp (p q : Q) : (p == q)%Q -> in_range p = in_range q.
Proof. intros Heq. unfold in_range, Qltb. by rewrite Heq. Qed.

Lemma Qltb_comp (p p' q q' : Q) :
  (p == p')%Q -> (q == q')%Q -> Qltb p q = Qltb p' q'.
Proof. intros Hp Hq. unfold Qltb. by rewrite Hp, Hq. Qed.

Lemma fl_in_range (q : Q) : in_range q = true -> fl q = Fin q.
Proof. intros Hq. unfold fl. by rewrite Hq. Qed.

Lemma fl_cases (q : Q) :
  (in_range q = true /\ fl q = Fin q)
  \/ (in_range q = false /\ is_finite (fl q) = false).
Proof. unfold fl. destruct (in_range q); [by left | by right]. Qed.

Lemma fmul_nonfinite_l (x y : float) :
  is_finite x = false -> is_finite (fmul x y) = false.
Proof.
  destruct x as [p | s |], y as [q | t |]; try done; intros _; simpl.
  by destruct (Qeq_bool q 0).
Qed.

Lemma fmul_nonfinite_r (x y : float) :
  is_finite y = false -> is_finite (fmul x y) = false.
Proof.
  destruct x as [p | s |], y as [q | t |]; try done; intros _; simpl.
  by destruct (Qeq_bool p 0).
Qed.

Lemma fadd_nonfinite_l (x y : float) :
  is_finite x = false -> is_finite (fadd x y) = false.
Proof.
  destruct x as [p | s |], y as [q | t |]; try done; intros _; simpl.
  by destruct (Bool.eqb s t).
Qed.

Lemma fadd_nonfinite_r (x y : float) :
  is_finite y = false -> is_finite (fadd x y) = false.
Proof.
  destruct x as [p | s |], y as [q | t |]; try done; intros _; simpl.
  by destruct (Bool.eqb s t).
Qed.

Lemma fdiv_nonfinite_l (x y : float) :
  is_finite x = false -> is_finite (fdiv x y) = false.
Proof. by destruct x as [p | s |], y as [q | t |]. Qed.

Lemma fdiv_by_zero (x : float) (q : Q) :
  Qeq_bool q 0 = true -> is_finite (fdiv x (Fin q)) = false.
Proof.
  intros Hq. destruct x as [p | s |]; try done. simpl. rewrite Hq.
  by destruct (Qeq_bool p 0).
Qed.

Lemma floordiv_nonfinite (x : float) (d : Q) :
  is_finite x = false -> ffloordiv x d = NaN.
Proof. by destruct x. Qed.

Lemma fadd_finite (x y : float) (s : Q) :
  fadd x y = Fin s ->
  exists p q, x = Fin p /\ y = Fin q /\ in_range (p + q) = true /\ s = (p + q)%Q.
Proof.
  destruct x as [p | a |], y as [q | b |]; simpl; try done.
  - unfold fl. destruct (in_range (p + q)) eqn:Hr; [|done].
    intros [= <-]. by exists p, q.
  - by destruct (Bool.eqb a b).
Qed.

Lemma one_plus_square_nonneg (s : Q) : Qltb (1 + s * s) 0 = false.
Proof.
  unfold Qltb. apply negb_false_iff, Qle_bool_iff.
  apply Qle_trans with (0 + 0)%Q; [apply Qle_refl|].
  apply Qplus_le_compat; [discriminate|].
  apply Qle_trans with (s ^ 2)%Q; [apply Qsqr_nonneg | apply Qle_refl].
Qed.

Section Radius.

Variable pow15 : Q -> Q.

Lemma fpow15_nonfinite (x : float) :
  is_finite x = false -> is_finite (fpow15 pow15 x) = false.
Proof. by destruct x. Qed.

(** With a non-zero leading coefficient the radius is the formula when every
    step is in range, and no finite number otherwise. *)
Lemma curverad_cases (f : fit) (y : Q) :
  ~ (fa f == 0)%Q ->
  (finite_radius pow15 f y = true /\ curverad pow15 f y = Fin (radius pow15 f y))
  \/ (finite_radius pow15 f y = false /\ is_finite (curverad pow15 f y) = false).
Proof.
  intros Ha. unfold curverad, finite_radius. cbv zeta.
  change (fmul (Fin 2) (Fin (fa f))) with (fl (2 * fa f)).
  destruct (fl_cases (2 * fa f)) as [[-> ->] | [-> Hnf]].
  2: { right. split; [done|].
       by apply fdiv_nonfinite_l, fpow15_nonfinite, fadd_nonfinite_r,
         fmul_nonfinite_l, fadd_nonfinite_l, fmul_nonfinite_l. }
  change (fmul (Fin (2 * fa f)) (Fin y)) with (fl (2 * fa f * y)).
  destruct (fl_cases (2 * fa f * y)) as [[-> ->] | [-> Hnf]].
  2: { right. split; [done|].
       by apply fdiv_nonfinite_l, fpow15_nonfinite, fadd_nonfinite_r,
         fmul_nonfinite_l, fadd_nonfinite_l. }
  change (fadd (Fin (2 * fa f * y)) (Fin (fb f))) with (fl (2 * fa f * y + fb f)).
  set (slope := (2 * fa f * y + fb f)%Q).
  destruct (fl_cases slope) as [[-> ->] | [-> Hnf]].
  2: { right. split; [done|].
       by apply fdiv_nonfinite_l, fpow15_nonfinite, fadd_nonfinite_r,
         fmul_nonfinite_l. }
  change (fmul (Fin slope) (Fin slope)) with (fl (slope * slope)).
  destruct (fl_cases (slope * slope)) as [[-> ->] | [-> Hnf]].
  2: { right. split; [done|].
       by apply fdiv_nonfinite_l, fpow15_nonfinite, fadd_nonfinite_r. }
  change (fadd (Fin 1) (Fin (slope * slope))) with (fl (1 + slope * slope)).
  destruct (fl_cases (1 + slope * slope)) as [[-> ->] | [-> Hnf]].
  2: { right. split; [done|]. by apply fdiv_nonfinite_l, fpow15_nonfinite. }
  unfold fpow15. rewrite one_plus_square_nonneg.
  destruct (fl_cases (pow15 (1 + slope * slope))) as [[-> ->] | [-> Hnf]].
  2: { right. split; [done|]. by apply fdiv_nonfinite_l. }
  unfold fabs, fdiv. rewrite Qabs_double_zero.
  destruct (Qeq_bool (fa f) 0) eqn:Hz.
  { by apply Qeq_bool_iff in Hz. }
  change (fl (pow15 (1 + slope * slope) / Qabs (2 * fa f)))
    with (fl (radius pow15 f y)).
  destruct (fl_cases (radius pow15 f y)) as [[-> ->] | [-> Hnf]].
  - by left.
  - by right.
Qed.

Lemma curverad_finite (f : fit) (y : Q) :
  ~ (fa f == 0)%Q -> finite_radius pow15 f y = true ->
  curverad pow15 f y = Fin (radius pow15 f y).
Proof.
  intros Ha Hfin. destruct (curverad_cases f y Ha) as [[_ ?] | [Hno _]]; [done|].
  congruence.
Qed.

Lemma curverad_straight (f : fit) (y : Q) :
  (fa f == 0)%Q -> is_finite (curverad pow15 f y) = false.
Proof.
  intros Ha. unfold curverad. cbv zeta.
  change (fmul (Fin 2) (Fin (fa f))) with (fl (2 * fa f)).
  rewrite (fl_in_range (2 * fa f)).
  - unfold fabs. apply fdiv_by_zero. rewrite Qabs_double_zero.
    by apply Qeq_bool_iff.
  - rewrite (in_range_comp _ 0); [reflexivity|]. rewrite Ha. reflexivity.
Qed.

(** A finite radius comes from a non-zero leading coefficient and is the
    formula. *)
Lemma curverad_inv (f : fit) (y r : Q) :
  curverad pow15 f y = Fin r ->
  ~ (fa f == 0)%Q /\ finite_radius pow15 f y = true /\ r = radius pow15 f y.
Proof.
  intros Hr. destruct (Qeq_dec (fa f) 0) as [Ha | Ha].
  { pose proof (curverad_straight f y Ha) as Hno. by rewrite Hr in Hno. }
  destruct (curverad_cases f y Ha) as [[Hfin Heq] | [_ Hno]].
  - rewrite Hr in Heq. injection Heq as ->. done.
  - by rewrite Hr in Hno.
Qed.

End Radius.




(** C4 (as the code has it): when the leading coefficient of either fit is
    zero no cap is applied; the division by [|2*a| = 0] leaves the finite
    numbers and the conversion of the result to an integer raises
    [ValueError]. *)
Theorem measure_curvature_real_straight (pow15 : Q -> Q) (ploty : list Q)
    (left_fit right_fit : fit) (w : world) :
  ploty <> [] -> (fa left_fit == 0)%Q \/ (fa right_fit == 0)%Q ->
  measure_curvature_real pow15 ploty left_fit right_fit w = (Raise ValueError, w).
Proof.
  intros Hne Hzero. destruct (np_max_spec ploty Hne) as (y_eval & Hmax & _).
  unfold measure_curvature_real, bind, lift. rewrite Hmax.
  rewrite floordiv_nonfinite; [done|].
  destruct Hzero as [Hz | Hz].
  - by apply fadd_nonfinite_l, curverad_straight.
  - by apply fadd_nonfinite_r, curverad_straight.
Qed.

Lemma measure_curvature_real_straight_witness :
  measure_curvature_real pow15_approx (linspace0 720) straight (Fit (1 # 2) 0 0)
    fresh_world = (Raise ValueError, fresh_world).
Proof.
  apply (measure_curvature_real_straight pow15_approx (linspace0 720)
           straight (Fit (1 # 2) 0 0) fresh_world).
  - vm_compute. discriminate.
  - left. reflexivity.
Defined.

(** C4, counterexample: the fit [a = 0, b = 0, c = 500] on both sides of a
    frame of 720 rows yields no radius at all, capped or not. *)
Lemma straight_lane_counterexample :
  measure_curvature_real pow15_approx (linspace0 720) straight straight fresh_world
  = (Raise ValueError, fresh_world).
Proof. vm_compute. reflexivity. Qed.

(** ** Effects of the search, the fit and the curvature *)

Section Effects.

Variable polyfit : list Q -> list Q -> result fit.
Variable pow15 : Q -> Q.
Variable fillPoly :
  list (list (Z * Z * Z)) -> list (Z * Z) -> Z * Z * Z -> list (list (Z * Z * Z)).

Lemma bind_inv {A B : Type} (m : M A) (k : A -> M B) (w w' : world) (r : result B) :
  bind m k w = (r, w') ->
  (exists a w1, m w = (Ok a, w1) /\ k a w1 = (r, w'))
  \/ (exists e, m w = (Raise e, w') /\ r = Raise e).
Proof.
  unfold bind. destruct (m w) as [[a | e] w1]; intros Heq.
  - left. by exists a, w1.
  - right. injection Heq as <- <-. by exists e.
Qed.

Lemma lift_inv {A : Type} (r r' : result A) (w w' : world) :
  lift r w = (r', w') -> r' = r /\ w' = w.
Proof. unfold lift. by intros [= <- <-]. Qed.

Lemma load_grid_inv (l : nat) (w w' : world) (r : result (list (list Z))) :
  load_grid l w = (r, w') ->
  w' = w /\ (forall g, r = Ok g -> heap w !! l = Some (Grid g)).
Proof.
  unfold load_grid. destruct (heap w !! l) as [[g | c] |]; intros [= <- <-];
    split; try done.
  by intros g' [= ->].
Qed.

Lemma windowHistograms_world (image : nat) (w : world) :
  snd (windowHistograms image w) = w.
Proof.
  unfold windowHistograms, bind, load_grid, lift.
  by destruct (heap w !! image) as [[g | c] |].
Qed.

Lemma searchAroundPoly_world (image : nat) (left_fit right_fit : fit) (w : world) :
  snd (searchAroundPoly image left_fit right_fit w) = w.
Proof.
  unfold searchAroundPoly, bind, read_global, load_grid, ret.
  destruct (g_binary_warped w) as [bw |]; [|done].
  by destruct (heap w !! bw) as [[g | c] |].
Qed.

Lemma fit_poly_result (H : Z) (leftx lefty rightx righty : list Z) :
  exists r, forall w, fit_poly polyfit H leftx lefty rightx righty w = (r, w).
Proof.
  unfold fit_poly, bind, lift, try_except, ret.
  destruct (polyfit (map inject_Z lefty) (map inject_Z leftx)) as [lf | e].
  2: { by exists (Raise e). }
  destruct (polyfit (map inject_Z righty) (map inject_Z rightx)) as [rf | e].
  2: { by exists (Raise e). }
  destruct (polyfit (scale ym_per_pix lefty) (scale xm_per_pix leftx)) as [lrw | e].
  2: { by exists (Raise e). }
  destruct (polyfit (scale ym_per_pix righty) (scale xm_per_pix rightx)) as [rrw | e].
  2: { by exists (Raise e). }
  by eexists.
Qed.

Lemma measure_curvature_real_world (ploty : list Q) (left_fit right_fit : fit)
    (w : world) :
  snd (measure_curvature_real pow15 ploty left_fit right_fit w) = w.
Proof.
  unfold measure_curvature_real, bind, lift. by destruct (np_max ploty).
Qed.

End Effects.

(** ** The per-frame call *)

Section Tracking.

Variable polyfit : list Q -> list Q -> result fit.
Variable pow15 : Q -> Q.
Variable fillPoly :
  list (list (Z * Z * Z)) -> list (Z * Z) -> Z * Z * Z -> list (list (Z * Z * Z)).

Lemma search_world (image : nat) (left_fit right_fit : fit) (w : world) :
  snd (search image left_fit right_fit w) = w.
Proof.
  unfold search. destruct (is_zero_fit left_fit && is_zero_fit right_fit).
  - apply windowHistograms_world.
  - apply searchAroundPoly_world.
Qed.

Lemma alloc_run (v : ndarray) (w : world) :
  alloc v w
  = (Ok (fresh (dom (heap w))), set_heap (<[fresh (dom (heap w)) := v]> (heap w)) w).
Proof. reflexivity. Qed.

Lemma update_after_insert (l : nat) (c : list (list (Z * Z * Z)))
    (f : list (list (Z * Z * Z)) -> list (list (Z * Z * Z)))
    (h : gmap nat ndarray) (w : world) :
  update_image3 l f (set_heap (<[l := Image3 c]> h) w)
  = (Ok tt, set_heap (<[l := Image3 (f c)]> h) w).
Proof.
  unfold update_image3, set_heap; simpl.
  by rewrite lookup_insert_eq, insert_insert_eq.
Qed.

(** What a run of [detectLane] amounts to: either it raises and leaves the
    world as it was, or every stage succeeded and the only change is the new
    image; the fits it returns are its own arguments. *)
Lemma detectLane_inv (image : nat) (left_fit right_fit : fit) (w w' : world)
    (r : result (nat * fit * fit * Z * Q)) :
  detectLane polyfit pow15 fillPoly image left_fit right_fit w = (r, w') ->
  (exists e, r = Raise e /\ w' = w)
  \/ (exists im leftx lefty rightx righty left_fitx right_fitx left_fit_rw
        right_fit_rw ploty curvature left_bottom right_bottom drawn,
       search image left_fit right_fit w = (Ok (leftx, lefty, rightx, righty), w)
       /\ heap w !! image = Some (Grid im)
       /\ fit_poly polyfit (shape0 im) leftx lefty rightx righty w
          = (Ok (left_fitx, right_fitx, left_fit_rw, right_fit_rw, ploty), w)
       /\ measure_curvature_real pow15 ploty left_fit_rw right_fit_rw w
          = (Ok curvature, w)
       /\ last_elem left_fitx = Ok left_bottom
       /\ last_elem right_fitx = Ok right_bottom
       /\ r = Ok (fresh (dom (heap w)), left_fit, right_fit, curvature,
                 ((640 - (left_bottom + right_bottom) / 2) * xm_per_pix)%Q)
       /\ w' = set_heap (<[fresh (dom (heap w)) := Image3 drawn]> (heap w)) w).
Proof.
  unfold detectLane. fold (search image left_fit right_fit).
  intros Hrun.
  apply bind_inv in Hrun as [(pixels & w1 & Hsearch & Hrun) | (e & Hsearch & ->)];
    pose proof (search_world image left_fit right_fit w) as Hw;
    rewrite Hsearch in Hw; simpl in Hw; subst.
  2: { left. by exists e. }
  destruct pixels as [[[leftx lefty] rightx] righty].
  apply bind_inv in Hrun as [(im & w1 & Hload & Hrun) | (e & Hload & ->)].
  2: { left. exists e. split; [done|]. by apply load_grid_inv in Hload as [-> _]. }
  apply load_grid_inv in Hload as [-> Him]. specialize (Him im eq_refl).
  destruct (fit_poly_result polyfit (shape0 im) leftx lefty rightx righty)
    as [rr Hrr].
  apply bind_inv in Hrun as [(fitted & w1 & Hfit & Hrun) | (e & Hfit & ->)];
    rewrite Hrr in Hfit; injection Hfit as -> <-.
  2: { left. by exists e. }
  destruct fitted as [[[[left_fitx right_fitx] left_fit_rw] right_fit_rw] ploty].
  apply bind_inv in Hrun as [(curvature & w1 & Hcurv & Hrun) | (e & Hcurv & ->)];
    pose proof (measure_curvature_real_world pow15 ploty left_fit_rw right_fit_rw w)
      as Hw; rewrite Hcurv in Hw; simpl in Hw; subst.
  2: { left. by exists e. }
  apply bind_inv in Hrun as [(left_bottom & w1 & Hlb & Hrun) | (e & Hlb & ->)];
    apply lift_inv in Hlb as [Hlb ->].
  2: { left. by exists e. }
  apply bind_inv in Hrun as [(right_bottom & w1 & Hrb & Hrun) | (e & Hrb & ->)];
    apply lift_inv in Hrb as [Hrb ->].
  2: { left. by exists e. }
  right. revert Hrun. unfold bind. rewrite alloc_run. cbv beta iota.
  do 3 (rewrite update_after_insert; cbv beta iota).
  unfold ret. intros [= <- <-].
  by eexists im, leftx, lefty, rightx, righty, left_fitx, right_fitx, left_fit_rw,
    right_fit_rw, ploty, curvature, left_bottom, right_bottom, _.
Qed.

Lemma read_global_inv {A : Type} (name : world -> option A) (w w' : world)
    (r : result A) :
  read_global name w = (r, w') -> w' = w /\ (forall v, r = Ok v -> name w = Some v).
Proof.
  unfold read_global. destruct (name w) as [v |]; intros [= <- <-]; split; try done.
  by intros v' [= ->].
Qed.

Lemma fresh_unused (w : world) : heap w !! fresh (dom (heap w)) = None.
Proof. apply not_elem_of_dom, is_fresh. Qed.

(** C10: the per-frame call never writes to its input.  After [detectLane],
    whether it returned or raised, the input array and every other array that
    existed before hold what they held; the drawing went to an image that did
    not exist before the call. *)
Theorem detectLane_input_unchanged (image : nat) (left_fit right_fit : fit)
    (w : world) :
  let run := detectLane polyfit pow15 fillPoly image left_fit right_fit w in
  heap (snd run) !! image = heap w !! image
  /\ heap w ⊆ heap (snd run)
  /\ (forall out lf rf curvature offset,
        fst run = Ok (out, lf, rf, curvature, offset) ->
        heap w !! out = None
        /\ exists drawn, heap (snd run) = <[out := Image3 drawn]> (heap w)).
Proof.
  intros run. subst run.
  destruct (detectLane polyfit pow15 fillPoly image left_fit right_fit w)
    as [r w'] eqn:Hrun. simpl.
  apply detectLane_inv in Hrun
    as [(e & -> & ->)
       | (im & lx & ly & rx & ry & lfx & rfx & lrw & rrw & ploty & curvature
          & lb & rb & drawn & _ & Him & _ & _ & _ & _ & -> & ->)].
  - split; [done|]. split; [done|]. discriminate.
  - simpl. pose proof (fresh_unused w) as Hfresh.
    assert (Hsub : heap w ⊆ <[fresh (dom (heap w)) := Image3 drawn]> (heap w))
      by by apply insert_subseteq.
    split; [|split; [done|]].
    + rewrite Him. eapply lookup_weaken; [exact Him | exact Hsub].
    + intros out lf rf c o [= <- _ _ _ _]. split; [done|]. by exists drawn.
Qed.

Section Frames.

Variable camera : Type.
Variable birdseye : camera -> list (list Z).

(** Whatever the outcome of a frame, the two globals are not changed; in
    particular a tracker that starts from [[0,0,0]] stays in cold start. *)
Lemma process_image_globals (img : camera) (w : world) :
  let w' := snd (process_image polyfit pow15 fillPoly camera birdseye img w) in
  g_left_fit w' = g_left_fit w /\ g_right_fit w' = g_right_fit w.
Proof.
  intros w'. subst w'.
  destruct (process_image polyfit pow15 fillPoly camera birdseye img w)
    as [r w'] eqn:Hrun; simpl.
  unfold process_image in Hrun.
  apply bind_inv in Hrun as [(transformed & w1 & Halloc & Hrun) | (e & [=] & _)].
  rewrite alloc_run in Halloc. injection Halloc as <- <-.
  apply bind_inv in Hrun as [(lf & w2 & Hlf & Hrun) | (e & Hlf & _)];
    destruct (read_global_inv _ _ _ _ Hlf) as [-> Hgl]; [|done].
  apply bind_inv in Hrun as [(rf & w2 & Hrf & Hrun) | (e & Hrf & _)];
    destruct (read_global_inv _ _ _ _ Hrf) as [-> Hgr]; [|done].
  specialize (Hgl lf eq_refl). specialize (Hgr rf eq_refl). simpl in Hgl, Hgr.
  apply bind_inv in Hrun as [(lane & w2 & Hlane & Hrun) | (e & Hlane & _)];
    apply detectLane_inv in Hlane
      as [(e' & Hr & ->)
         | (im & lx & ly & rx & ry & lfx & rfx & lrw & rrw & ploty & curvature
            & lb & rb & drawn & _ & _ & _ & _ & _ & _ & Hr & ->)];
    try done.
  injection Hr as ->. revert Hrun. unfold bind, assign_fits, ret.
  intros [= _ <-]. simpl. by rewrite Hgl, Hgr.
Qed.

(** C1 (as the code has it): a frame that is found and fitted leaves the
    tracking state as it was.  [detectLane] hands back the fits it was given
    and [process_image] stores those, so the globals [left_fit] and
    [right_fit] after a successful frame are the ones before it. *)
Theorem process_image_keeps_prior_fit (img : camera) (w w' : world)
    (r : nat * Z * Q) :
  process_image polyfit pow15 fillPoly camera birdseye img w = (Ok r, w') ->
  g_left_fit w' = g_left_fit w /\ g_right_fit w' = g_right_fit w.
Proof.
  intros Hrun. pose proof (process_image_globals img w) as Hglobals.
  by rewrite Hrun in Hglobals.
Qed.

End Frames.

Hypothesis polyfit_empty : forall ys, polyfit [] ys = Raise TypeError.

Lemma fit_poly_empty_side (H : Z) (leftx lefty rightx righty : list Z) (w : world) :
  lefty = [] \/ righty = [] ->
  exists e,
    fit_poly polyfit H leftx lefty rightx righty w = (Raise e, w)
    /\ (lefty = [] -> e = TypeError).
Proof.
  intros Hempty. unfold fit_poly, bind, lift.
  destruct (polyfit (map inject_Z lefty) (map inject_Z leftx)) as [lf | e] eqn:Hl.
  - destruct Hempty as [-> | ->].
    + simpl in Hl. by rewrite polyfit_empty in Hl.
    + simpl. rewrite polyfit_empty. exists TypeError. split; [done|].
      intros ->. simpl in Hl. by rewrite polyfit_empty in Hl.
  - exists e. split; [done|]. intros ->. simpl in Hl.
    rewrite polyfit_empty in Hl. by injection Hl as <-.
Qed.

(** C2 (as the code has it): when the search leaves either side without any
    pixel the per-frame call raises and produces no geometry; with an empty
    left side the exception is the [TypeError] of [np.polyfit].  Nothing is
    caught, nothing is drawn and the world is as before. *)
Theorem detectLane_empty_side_fails (image : nat) (left_fit right_fit : fit)
    (w : world) (leftx lefty rightx righty : list Z) :
  search image left_fit right_fit w = (Ok (leftx, lefty, rightx, righty), w) ->
  lefty = [] \/ righty = [] ->
  exists e,
    detectLane polyfit pow15 fillPoly image left_fit right_fit w = (Raise e, w)
    /\ (lefty = [] -> e = TypeError).
Proof.
  intros Hsearch Hempty. unfold detectLane. fold (search image left_fit right_fit).
  unfold bind at 1. rewrite Hsearch. unfold bind at 1.
  destruct (load_grid image w) as [[im | e] w1] eqn:Hload;
    apply load_grid_inv in Hload as Hinv; destruct Hinv as [-> _].
  - destruct (fit_poly_empty_side (shape0 im) leftx lefty rightx righty w Hempty)
      as (e & Hfit & He).
    exists e. split; [|done]. unfold bind at 1. by rewrite Hfit.
  - exists e. split; [done|]. intros ->.
    revert Hload. unfold load_grid.
    by destruct (heap w !! image) as [[g | c] |]; intros [= <-].
Qed.

End Tracking.

Lemma process_image_keeps_prior_fit_witness :
  let run := process_image_exact three_pixels fresh_world in
  fst run = Ok (1%nat, 38118, 755392 # 224000)
  /\ sliding_windows three_pixels = Ok ([2; 3; 1], [8; 7; 6], [2; 3; 1], [8; 7; 6])
  /\ polyfit_exact (map inject_Z [8; 7; 6]) (map inject_Z [2; 3; 1])
     = Ok (Fit (-3 # 2) (43 # 2) (-74))
  /\ g_left_fit (snd run) = Some zero_fit
  /\ g_right_fit (snd run) = Some zero_fit.
Proof.
  intros run.
  assert (Hfst : fst run = Ok (1%nat, 38118, 755392 # 224000))
    by (vm_compute; reflexivity).
  split; [exact Hfst|]. split; [vm_compute; reflexivity|].
  split; [vm_compute; reflexivity|].
  apply (process_image_keeps_prior_fit polyfit_exact pow15_approx fill_evenodd
           (list (list Z)) (fun img => img) three_pixels fresh_world (snd run)
           (1%nat, 38118, 755392 # 224000)).
  rewrite <- Hfst. apply surjective_pairing.
Defined.

Lemma detectLane_empty_side_fails_witness :
  search 0%nat zero_fit zero_fit (world_with zero_frame)
  = (Ok ([], [], [], []), world_with zero_frame)
  /\ detectLane_exact 0%nat zero_fit zero_fit (world_with zero_frame)
     = (Raise TypeError, world_with zero_frame).
Proof.
  assert (Hsearch : search 0%nat zero_fit zero_fit (world_with zero_frame)
                    = (Ok ([], [], [], []), world_with zero_frame))
    by (vm_compute; reflexivity).
  split; [exact Hsearch|].
  destruct (detectLane_empty_side_fails polyfit_exact pow15_approx fill_evenodd
              (fun ys => eq_refl) 0%nat zero_fit zero_fit (world_with zero_frame)
              [] [] [] [] Hsearch (or_introl eq_refl)) as (e & Hrun & He).
  unfold detectLane_exact. rewrite Hrun. by rewrite (He eq_refl).
Defined.

(** C2, counterexample.  A first frame with a single pixel, at column 1 of
    the bottom row: each side's pixel set has one point, [np.polyfit] answers
    (with a rank warning only), and the per-frame call returns a curvature
    and an offset instead of failing. *)
Lemma single_pixel_counterexample :
  search 0%nat zero_fit zero_fit (world_with one_pixel)
  = (Ok ([1], [8], [1], [8]), world_with one_pixel)
  /\ polyfit_exact (map inject_Z [8]) (map inject_Z [1])
     = Ok (Fit (1 # 192) (1 # 24) (1 # 3))
  /\ exists offset,
       fst (detectLane_exact 0%nat zero_fit zero_fit (world_with one_pixel))
       = Ok (1%nat, zero_fit, zero_fit, 34, offset)
       /\ (offset == (640 - 1) * xm_per_pix)%Q.
Proof.
  split; [vm_compute; reflexivity|]. split; [vm_compute; reflexivity|].
  exists (9036495323136 # 2675441664000). split; vm_compute; reflexivity.
Qed.

(** ** Warm-start search *)

Lemma searchAroundPoly_unbound (image : nat) (left_fit right_fit : fit) (w : world) :
  g_binary_warped w = None ->
  searchAroundPoly image left_fit right_fit w = (Raise NameError, w).
Proof. intros Hbw. unfold searchAroundPoly, bind, read_global. by rewrite Hbw. Qed.

(** C3 (as the code has it): the warm-start search does not read the frame it
    is given.  The on pixels of the input frame within 60 columns of the prior
    curve [x = 1] are (1,6), (3,7) and (2,8); with the globals of the
    notebook the call raises [NameError], and with [binary_warped] bound to
    another array it returns the pixels of that array. *)
Theorem searchAroundPoly_reads_global_frame :
  let left_fit := Fit 0 0 1 in
  let right_fit := Fit 0 0 3 in
  pixels_near left_fit three_pixels = [(1, 6); (3, 7); (2, 8)]
  /\ searchAroundPoly 0%nat left_fit right_fit (world_with three_pixels)
     = (Raise NameError, world_with three_pixels)
  /\ searchAroundPoly 0%nat left_fit right_fit
       (world_with_global three_pixels one_pixel)
     = (Ok ([1], [8], [1], [8]), world_with_global three_pixels one_pixel).
Proof. repeat split; vm_compute; reflexivity. Qed.

(** ** The lateral offset *)

(** C5 (as the code has it): the offset is measured from column 640 whatever
    the width of the frame.  In a frame four columns wide whose two fitted
    curves meet the bottom row at column 2, the centre of the frame, the
    reported offset is [(640 - 2) * xm_per_pix] and not zero. *)
Theorem offset_measured_from_column_640 :
  let run := detectLane_exact 0%nat zero_fit zero_fit (world_with three_pixels) in
  let f := Fit (-3 # 2) (43 # 2) (-74) in
  shape1 three_pixels = 4
  /\ search 0%nat zero_fit zero_fit (world_with three_pixels)
     = (Ok ([2; 3; 1], [8; 7; 6], [2; 3; 1], [8; 7; 6]), world_with three_pixels)
  /\ polyfit_exact (map inject_Z [8; 7; 6]) (map inject_Z [2; 3; 1]) = Ok f
  /\ (poly_at f (inject_Z (shape0 three_pixels - 1)) == 4 / 2)%Q
  /\ exists curvature offset,
       fst run = Ok (1%nat, zero_fit, zero_fit, curvature, offset)
       /\ (offset == (640 - (2 + 2) / 2) * xm_per_pix)%Q
       /\ ~ (offset == (4 / 2 - (2 + 2) / 2) * xm_per_pix)%Q.
Proof.
  intros run f. split; [reflexivity|]. split; [vm_compute; reflexivity|].
  split; [vm_compute; reflexivity|]. split; [vm_compute; reflexivity|].
  exists 38118, (755392 # 224000). split; [vm_compute; reflexivity|].
  split; [vm_compute; reflexivity|]. vm_compute. discriminate.
Qed.

(** ** Frames without any pixel *)

Lemma flatnonzero_from_none (i : nat) (mask : list bool) :
  Forall (eq false) mask -> flatnonzero_from i mask = [].
Proof.
  intros Hmask. revert i. induction Hmask as [|b rest <- _ IH]; intros i; simpl; auto.
Qed.

Lemma row_nonzero_zero (row : list Z) : Forall (eq 0) row -> row_nonzero row = [].
Proof.
  intros Hrow. unfold row_nonzero, flatnonzero. apply flatnonzero_from_none.
  apply Forall_map. eapply Forall_impl; [exact Hrow|]. by intros v <-.
Qed.

Lemma concat_imap_nil {A B : Type} (f : nat -> A -> list B) (l : list A) :
  (forall i x, x ∈ l -> f i x = []) -> concat (imap f l) = [].
Proof.
  revert f. induction l as [|x l IH]; intros f Hf; simpl; [done|].
  rewrite Hf by by left. simpl. apply IH. intros i y Hy. apply Hf. by right.
Qed.

Lemma nonzero_zero (image : list (list Z)) :
  Forall (Forall (eq 0)) image -> nonzero image = ([], []).
Proof.
  intros Hzero. unfold nonzero.
  assert (Hcells : nonzero_cells image = []).
  { unfold nonzero_cells. apply concat_imap_nil. intros y row Hrow.
    rewrite row_nonzero_zero; [done|].
    rewrite Forall_forall in Hzero. by apply Hzero. }
  by rewrite Hcells.
Qed.

Lemma lane_bases_defined (W : nat) (image : list (list Z)) :
  rectangular W image -> (2 <= W)%nat -> exists bases, lane_bases image = Ok bases.
Proof.
  intros Hrect HW. destruct (histogram_columns W image Hrect) as [Hlen _].
  assert (Hmid : (1 <= W / 2 < W)%nat).
  { split.
    - apply Nat.div_le_lower_bound; lia.
    - apply Nat.div_lt; lia. }
  unfold lane_bases. rewrite Hlen, half_to_nat.
  destruct (argmax_first_max (take (W / 2) (histogram image))) as (l & -> & _).
  { intros Hnil. apply (f_equal length) in Hnil.
    rewrite length_take, Hlen in Hnil.
    change (length (@nil Z)) with 0%nat in Hnil. lia. }
  destruct (argmax_first_max (drop (W / 2) (histogram image))) as (k & -> & _).
  { intros Hnil. apply (f_equal length) in Hnil.
    rewrite length_drop, Hlen in Hnil.
    change (length (@nil Z)) with 0%nat in Hnil. lia. }
  by eexists.
Qed.

(** The cold-start search of a frame that is zero everywhere finds nothing. *)
Lemma sliding_windows_zero (W : nat) (image : list (list Z)) :
  rectangular W image -> (2 <= W)%nat -> Forall (Forall (eq 0)) image ->
  sliding_windows image = Ok ([], [], [], []).
Proof.
  intros Hrect HW Hzero. unfold sliding_windows.
  destruct (lane_bases_defined W image Hrect HW) as [bases ->].
  unfold rbind, window_loop. rewrite (nonzero_zero image Hzero). reflexivity.
Qed.

(** An all-zero first frame: the per-frame call raises the [TypeError] of
    [np.polyfit] and leaves the world as it was. *)
Lemma detectLane_zero_frame_fails (polyfit : list Q -> list Q -> result fit)
    (pow15 : Q -> Q)
    (fillPoly : list (list (Z * Z * Z)) -> list (Z * Z) -> Z * Z * Z
                -> list (list (Z * Z * Z)))
    (W image : nat) (im : list (list Z)) (w : world) :
  (forall ys, polyfit [] ys = Raise TypeError) ->
  heap w !! image = Some (Grid im) ->
  rectangular W im -> (2 <= W)%nat -> Forall (Forall (eq 0)) im ->
  detectLane polyfit pow15 fillPoly image zero_fit zero_fit w = (Raise TypeError, w).
Proof.
  intros Hpoly Him Hrect HW Hzero. unfold detectLane. simpl.
  unfold bind at 1. unfold windowHistograms, bind at 1, load_grid. rewrite Him.
  unfold lift at 1. rewrite (sliding_windows_zero W im Hrect HW Hzero).
  unfold bind at 1. rewrite Him. unfold bind at 1, fit_poly, bind at 1, lift at 1.
  simpl. by rewrite Hpoly.
Qed.

(** ** The pixels of a frame *)

Lemma elem_of_flatnonzero_from (i : nat) (mask : list bool) (k : nat) :
  k ∈ flatnonzero_from i mask <-> (i <= k)%nat /\ mask !! (k - i)%nat = Some true.
Proof.
  revert i. induction mask as [|b rest IH]; intros i; simpl.
  - rewrite elem_of_nil. split; [done|]. intros [_ Hk]. by rewrite lookup_nil in Hk.
  - destruct b.
    + rewrite elem_of_cons, IH. split.
      * intros [-> | [Hle Hk]].
        -- split; [lia|]. by rewrite Nat.sub_diag.
        -- split; [lia|]. by replace (k - i)%nat with (S (k - S i)) by lia.
      * intros [Hle Hk]. destruct (decide (k = i)) as [->|Hne]; [by left|].
        right. split; [lia|].
        by replace (k - i)%nat with (S (k - S i)) in Hk by lia.
    + rewrite IH. split.
      * intros [Hle Hk]. split; [lia|].
        by replace (k - i)%nat with (S (k - S i)) by lia.
      * intros [Hle Hk]. destruct (decide (k = i)) as [->|Hne].
        { by rewrite Nat.sub_diag in Hk. }
        split; [lia|]. by replace (k - i)%nat with (S (k - S i)) in Hk by lia.
Qed.

Lemma elem_of_flatnonzero (mask : list bool) (k : nat) :
  k ∈ flatnonzero mask <-> mask !! k = Some true.
Proof.
  unfold flatnonzero. rewrite elem_of_flatnonzero_from, Nat.sub_0_r.
  split; [by intros [_ ?] | intros ?; split; [lia | done]].
Qed.

Lemma flatnonzero_from_NoDup (i : nat) (mask : list bool) :
  NoDup (flatnonzero_from i mask).
Proof.
  revert i. induction mask as [|b rest IH]; intros i; simpl.
  - constructor.
  - destruct b; [|apply IH]. apply NoDup_cons. split; [|apply IH].
    rewrite elem_of_flatnonzero_from. lia.
Qed.

Lemma elem_of_row_nonzero (row : list Z) (x : nat) :
  x ∈ row_nonzero row <-> exists v, row !! x = Some v /\ v <> 0.
Proof.
  unfold row_nonzero. rewrite elem_of_flatnonzero, list_lookup_fmap. split.
  - destruct (row !! x) as [v|]; simpl; [|done]. intros [= Hv].
    exists v. split; [done|]. intros ->. done.
  - intros (v & -> & Hv). simpl. f_equal.
    destruct (v =? 0) eqn:Hz; [|done]. by apply Z.eqb_eq in Hz.
Qed.

Lemma elem_of_concat {A : Type} (x : A) (ls : list (list A)) :
  x ∈ concat ls <-> exists l, l ∈ ls /\ x ∈ l.
Proof.
  rewrite list_elem_of_In, in_concat. split; intros (l & Hl & Hx); exists l.
  - by rewrite !list_elem_of_In.
  - by rewrite <- !list_elem_of_In.
Qed.

Lemma elem_of_nonzero_cells (image : list (list Z)) (y x : nat) :
  (y, x) ∈ nonzero_cells image
  <-> exists row v, image !! y = Some row /\ row !! x = Some v /\ v <> 0.
Proof.
  unfold nonzero_cells. rewrite elem_of_concat. split.
  - intros (l & Hl & Hin). apply elem_of_lookup_imap in Hl as (y' & row & -> & Hrow).
    apply list_elem_of_fmap in Hin as (x' & [= -> ->] & Hx).
    apply elem_of_row_nonzero in Hx as (v & Hv & Hnz). by exists row, v.
  - intros (row & v & Hrow & Hv & Hnz).
    exists (map (fun x => (y, x)) (row_nonzero row)). split.
    + by apply (elem_of_lookup_imap_2
                  (fun y row => map (fun x => (y, x)) (row_nonzero row))).
    + apply list_elem_of_fmap. exists x. split; [done|].
      apply elem_of_row_nonzero. by exists v.
Qed.

Lemma nonzero_lookup (image : list (list Z)) (i : nat) (y x : Z) :
  fst (nonzero image) !! i = Some y /\ snd (nonzero image) !! i = Some x
  <-> exists c, nonzero_cells image !! i = Some c
                /\ y = Z.of_nat (fst c) /\ x = Z.of_nat (snd c).
Proof.
  unfold nonzero; simpl. rewrite !list_lookup_fmap.
  destruct (nonzero_cells image !! i) as [c|]; simpl; split.
  - intros [[= <-] [= <-]]. by exists c.
  - by intros (c' & [= <-] & -> & ->).
  - by intros [[=] _].
  - by intros (c & [=] & _).
Qed.

Lemma nonzero_lengths (image : list (list Z)) :
  length (fst (nonzero image)) = length (snd (nonzero image)).
Proof. unfold nonzero; simpl. by rewrite !length_map. Qed.

(** The arrays of [image.nonzero()] list the on pixels, each at one index. *)
Lemma on_pixel_index (image : list (list Z)) (x y : Z) :
  on_pixel image x y
  <-> exists i, fst (nonzero image) !! i = Some y /\ snd (nonzero image) !! i = Some x.
Proof.
  split.
  - intros (Hx & Hy & row & v & Hrow & Hv & Hnz).
    assert (Hin : (Z.to_nat y, Z.to_nat x) ∈ nonzero_cells image)
      by (apply elem_of_nonzero_cells; by exists row, v).
    apply list_elem_of_lookup in Hin as [i Hi]. exists i.
    apply nonzero_lookup. eexists. split; [done|]. simpl. lia.
  - intros (i & Hi). apply nonzero_lookup in Hi as ([y' x'] & Hc & -> & ->).
    simpl. assert (Hin : (y', x') ∈ nonzero_cells image)
      by (apply list_elem_of_lookup; by exists i).
    apply elem_of_nonzero_cells in Hin as (row & v & Hrow & Hv & Hnz).
    split; [lia|]. split; [lia|]. exists row, v. by rewrite !Nat2Z.id.
Qed.

(** ** The bands of the cold-start search *)

Lemma window_range_lookup (k : nat) :
  (k < 9)%nat -> window_range !! k = Some (Z.of_nat k).
Proof.
  intros Hk. unfold window_range. change (Z.to_nat nwindows) with 9%nat.
  rewrite list_lookup_fmap.
  assert (Hseq : seq 0 9 !! k = Some k) by (apply lookup_seq; lia).
  by rewrite Hseq.
Qed.

Lemma band_state_S (image : list (list Z)) (bases : Z * Z) (k : nat) :
  (k < 9)%nat ->
  band_state image bases (S k)
  = window_step (shape0 image) (shape0 image / nwindows)
      (fst (nonzero image)) (snd (nonzero image))
      (band_state image bases k) (Z.of_nat k).
Proof.
  intros Hk. unfold band_state.
  rewrite (take_S_r _ _ _ (window_range_lookup k Hk)).
  by rewrite fold_left_app.
Qed.

Lemma window_loop_band_state (image : list (list Z)) (leftx_base rightx_base : Z) :
  window_loop image leftx_base rightx_base
  = band_state image (leftx_base, rightx_base) 9.
Proof.
  unfold window_loop, band_state.
  assert (Hall : take 9 window_range = window_range) by reflexivity.
  by rewrite Hall.
Qed.

Lemma band_state_left_inds (image : list (list Z)) (bases : Z * Z) (k : nat) :
  (k <= 9)%nat ->
  left_lane_inds (band_state image bases k)
  = map (fun j =>
           window_left (shape0 image) (shape0 image / nwindows)
             (fst (nonzero image)) (snd (nonzero image))
             (band_state image bases j) (Z.of_nat j))
        (seq 0 k).
Proof.
  induction k as [|k IH]; intros Hk; [done|].
  rewrite band_state_S by lia. rewrite seq_S, map_app. simpl.
  by rewrite IH by lia.
Qed.

Lemma band_state_right_inds (image : list (list Z)) (bases : Z * Z) (k : nat) :
  (k <= 9)%nat ->
  right_lane_inds (band_state image bases k)
  = map (fun j =>
           window_right (shape0 image) (shape0 image / nwindows)
             (fst (nonzero image)) (snd (nonzero image))
             (band_state image bases j) (Z.of_nat j))
        (seq 0 k).
Proof.
  induction k as [|k IH]; intros Hk; [done|].
  rewrite band_state_S by lia. rewrite seq_S, map_app. simpl.
  by rewrite IH by lia.
Qed.

Lemma elem_of_good_inds (nonzeroy nonzerox : list Z)
    (win_y_low win_y_high win_x_low win_x_high : Z) (i : nat) :
  i ∈ good_inds nonzeroy nonzerox win_y_low win_y_high win_x_low win_x_high
  <-> exists y x,
        nonzeroy !! i = Some y /\ nonzerox !! i = Some x
        /\ win_y_low <= y < win_y_high /\ win_x_low <= x < win_x_high.
Proof.
  unfold good_inds. rewrite elem_of_flatnonzero, lookup_zip_with.
  destruct (nonzeroy !! i) as [y|]; simpl.
  2: { split; [done | by intros (y & x & [=] & _)]. }
  destruct (nonzerox !! i) as [x|]; simpl.
  2: { split; [done | by intros (y' & x & _ & [=] & _)]. }
  split.
  - intros [= Hmask]. exists y, x.
    apply andb_prop in Hmask as [Hmask Hxl]. apply andb_prop in Hmask as [Hmask Hxh].
    apply andb_prop in Hmask as [Hyh Hyl].
    apply Z.ltb_lt in Hyh, Hxh. apply Z.leb_le in Hyl, Hxl.
    split; [done|]. split; [done|]. lia.
  - intros (y' & x' & [= <-] & [= <-] & Hy & Hx). f_equal.
    repeat (apply andb_true_intro; split);
      first [apply Z.ltb_lt | apply Z.leb_le]; lia.
Qed.

(** The indices collected on each side: those of the on pixels that lie in
    some band and, there, in the window around the centre the side has when
    that band starts. *)
Lemma elem_of_left_inds (image : list (list Z)) (bases : Z * Z) (i : nat) :
  i ∈ concat (left_lane_inds (band_state image bases 9))
  <-> exists (k : nat) y x,
        (k < 9)%nat
        /\ fst (nonzero image) !! i = Some y /\ snd (nonzero image) !! i = Some x
        /\ in_band image k y
        /\ in_window (leftx_current (band_state image bases k)) x.
Proof.
  rewrite band_state_left_inds by lia. rewrite elem_of_concat. split.
  - intros (l & Hl & Hi). apply list_elem_of_fmap in Hl as (k & -> & Hk).
    apply elem_of_seq in Hk. unfold window_left in Hi.
    apply elem_of_good_inds in Hi as (y & x & Hy & Hx & Hband & Hwin).
    exists k, y, x. unfold in_band, in_window.
    split; [lia|]. split; [done|]. split; [done|]. lia.
  - intros (k & y & x & Hk & Hy & Hx & [Hb1 Hb2] & [Hw1 Hw2]).
    eexists. split.
    + apply list_elem_of_fmap. exists k. split; [reflexivity|].
      apply elem_of_seq. lia.
    + unfold window_left. apply elem_of_good_inds. by exists y, x.
Qed.

Lemma elem_of_right_inds (image : list (list Z)) (bases : Z * Z) (i : nat) :
  i ∈ concat (right_lane_inds (band_state image bases 9))
  <-> exists (k : nat) y x,
        (k < 9)%nat
        /\ fst (nonzero image) !! i = Some y /\ snd (nonzero image) !! i = Some x
        /\ in_band image k y
        /\ in_window (rightx_current (band_state image bases k)) x.
Proof.
  rewrite band_state_right_inds by lia. rewrite elem_of_concat. split.
  - intros (l & Hl & Hi). apply list_elem_of_fmap in Hl as (k & -> & Hk).
    apply elem_of_seq in Hk. unfold window_right in Hi.
    apply elem_of_good_inds in Hi as (y & x & Hy & Hx & Hband & Hwin).
    exists k, y, x. unfold in_band, in_window.
    split; [lia|]. split; [done|]. split; [done|]. lia.
  - intros (k & y & x & Hk & Hy & Hx & [Hb1 Hb2] & [Hw1 Hw2]).
    eexists. split.
    + apply list_elem_of_fmap. exists k. split; [reflexivity|].
      apply elem_of_seq. lia.
    + unfold window_right. apply elem_of_good_inds. by exists y, x.
Qed.

Lemma zip_take_inds (xs ys : list Z) (inds : list nat) :
  zip (take_inds xs inds) (take_inds ys inds)
  = map (fun i => (nth i xs 0, nth i ys 0)) inds.
Proof. induction inds as [|i inds IH]; simpl; [done | by rewrite <- IH]. Qed.

(** The pixels a list of valid indices selects. *)
Lemma elem_of_selected (image : list (list Z)) (inds : list nat) (x y : Z) :
  (forall i, i ∈ inds -> is_Some (fst (nonzero image) !! i)) ->
  (x, y) ∈ zip (take_inds (snd (nonzero image)) inds)
               (take_inds (fst (nonzero image)) inds)
  <-> exists i, i ∈ inds
                /\ fst (nonzero image) !! i = Some y
                /\ snd (nonzero image) !! i = Some x.
Proof.
  intros Hvalid. rewrite zip_take_inds, list_elem_of_fmap. split.
  - intros (i & Heq & Hi). exists i. split; [done|].
    destruct (Hvalid i Hi) as [y' Hy].
    assert (Hlt : (i < length (snd (nonzero image)))%nat).
    { rewrite <- nonzero_lengths. by eapply lookup_lt_Some. }
    destruct (lookup_lt_is_Some_2 _ _ Hlt) as [x' Hx].
    rewrite !nth_lookup, Hx, Hy in Heq. simpl in Heq. by injection Heq as -> ->.
  - intros (i & Hi & Hy & Hx). exists i. split; [|done].
    by rewrite !nth_lookup, Hx, Hy.
Qed.

Lemma Ok_inj {A : Type} (a b : A) : Ok a = Ok b -> a = b.
Proof. by intros [= ->]. Qed.

Lemma sliding_windows_inv (image : list (list Z)) (leftx lefty rightx righty : list Z) :
  sliding_windows image = Ok (leftx, lefty, rightx, righty) ->
  exists bases,
    lane_bases image = Ok bases
    /\ leftx = take_inds (snd (nonzero image))
                 (concat (left_lane_inds (band_state image bases 9)))
    /\ lefty = take_inds (fst (nonzero image))
                 (concat (left_lane_inds (band_state image bases 9)))
    /\ rightx = take_inds (snd (nonzero image))
                  (concat (right_lane_inds (band_state image bases 9)))
    /\ righty = take_inds (fst (nonzero image))
                  (concat (right_lane_inds (band_state image bases 9))).
Proof.
  unfold sliding_windows, rbind.
  destruct (lane_bases image) as [[l r] | e]; [|intros Heq; discriminate Heq].
  rewrite window_loop_band_state. cbv zeta. intros Heq.
  apply Ok_inj in Heq. apply pair_equal_spec in Heq as [Heq H4].
  apply pair_equal_spec in Heq as [Heq H3]. apply pair_equal_spec in Heq as [H1 H2].
  exists (l, r).
  split; [reflexivity|]. split; [exact (eq_sym H1)|]. split; [exact (eq_sym H2)|].
  split; [exact (eq_sym H3) | exact (eq_sym H4)].
Qed.

Lemma left_pixels_iff (image : list (list Z)) (bases : Z * Z) (x y : Z) :
  (x, y) ∈ zip (take_inds (snd (nonzero image))
                  (concat (left_lane_inds (band_state image bases 9))))
               (take_inds (fst (nonzero image))
                  (concat (left_lane_inds (band_state image bases 9))))
  <-> on_pixel image x y
      /\ exists k : nat,
           (k < 9)%nat /\ in_band image k y
           /\ in_window (leftx_current (band_state image bases k)) x.
Proof.
  rewrite elem_of_selected.
  2: { intros i Hi. apply elem_of_left_inds in Hi as (k & y' & x' & _ & Hy & _).
       by exists y'. }
  split.
  - intros (i & Hi & Hy & Hx).
    apply elem_of_left_inds in Hi as (k & y' & x' & Hk & Hy' & Hx' & Hband & Hwin).
    rewrite Hy in Hy'. rewrite Hx in Hx'. injection Hy' as <-. injection Hx' as <-.
    split; [apply on_pixel_index; by exists i | by exists k].
  - intros [Hon (k & Hk & Hband & Hwin)].
    apply on_pixel_index in Hon as (i & Hy & Hx). exists i. split; [|done].
    apply elem_of_left_inds. by exists k, y, x.
Qed.

Lemma right_pixels_iff (image : list (list Z)) (bases : Z * Z) (x y : Z) :
  (x, y) ∈ zip (take_inds (snd (nonzero image))
                  (concat (right_lane_inds (band_state image bases 9))))
               (take_inds (fst (nonzero image))
                  (concat (right_lane_inds (band_state image bases 9))))
  <-> on_pixel image x y
      /\ exists k : nat,
           (k < 9)%nat /\ in_band image k y
           /\ in_window (rightx_current (band_state image bases k)) x.
Proof.
  rewrite elem_of_selected.
  2: { intros i Hi. apply elem_of_right_inds in Hi as (k & y' & x' & _ & Hy & _).
       by exists y'. }
  split.
  - intros (i & Hi & Hy & Hx).
    apply elem_of_right_inds in Hi as (k & y' & x' & Hk & Hy' & Hx' & Hband & Hwin).
    rewrite Hy in Hy'. rewrite Hx in Hx'. injection Hy' as <-. injection Hx' as <-.
    split; [apply on_pixel_index; by exists i | by exists k].
  - intros [Hon (k & Hk & Hband & Hwin)].
    apply on_pixel_index in Hon as (i & Hy & Hx). exists i. split; [|done].
    apply elem_of_right_inds. by exists k, y, x.
Qed.

Lemma in_band_rows (image : list (list Z)) (k : nat) (y : Z) :
  (k < 9)%nat -> in_band image k y ->
  shape0 image mod 9 <= y < shape0 image.
Proof.
  unfold in_band, nwindows. intros Hk [Hlow Hhigh].
  assert (HH : 0 <= shape0 image) by (unfold shape0; lia).
  pose proof (Z.div_pos (shape0 image) 9 HH ltac:(lia)) as Hh.
  rewrite Z.mod_eq by lia. nia.
Qed.

(** X1: what the cold-start search returns.  Each side's pixel set pairs up
    ([leftx] with [lefty], [rightx] with [righty]) into exactly the on pixels
    of the frame that lie, for one of the nine bands, in the rows of the band
    and within 80 columns of the centre that side has when the band starts. *)
Theorem sliding_windows_pixels (image : list (list Z))
    (leftx lefty rightx righty : list Z) :
  sliding_windows image = Ok (leftx, lefty, rightx, righty) ->
  length leftx = length lefty /\ length rightx = length righty
  /\ exists bases,
       lane_bases image = Ok bases
       /\ forall x y,
            ((x, y) ∈ zip leftx lefty
             <-> on_pixel image x y
                 /\ exists k : nat,
                      (k < 9)%nat /\ in_band image k y
                      /\ in_window (leftx_current (band_state image bases k)) x)
            /\ ((x, y) ∈ zip rightx righty
                <-> on_pixel image x y
                    /\ exists k : nat,
                         (k < 9)%nat /\ in_band image k y
                         /\ in_window (rightx_current (band_state image bases k)) x).
Proof.
  intros Hrun.
  apply sliding_windows_inv in Hrun as (bases & Hbases & -> & -> & -> & ->).
  unfold take_inds at 1 2 3 4. rewrite !length_map.
  split; [done|]. split; [done|]. exists bases. split; [done|].
  intros x y. split; [apply left_pixels_iff | apply right_pixels_iff].
Qed.

Lemma sliding_windows_pixels_witness :
  length [2; 3; 1] = length [8; 7; 6] /\ length [2; 3; 1] = length [8; 7; 6]
  /\ exists bases,
       lane_bases three_pixels = Ok bases
       /\ forall x y,
            ((x, y) ∈ zip [2; 3; 1] [8; 7; 6]
             <-> on_pixel three_pixels x y
                 /\ exists k : nat,
                      (k < 9)%nat /\ in_band three_pixels k y
                      /\ in_window
                           (leftx_current (band_state three_pixels bases k)) x)
            /\ ((x, y) ∈ zip [2; 3; 1] [8; 7; 6]
                <-> on_pixel three_pixels x y
                    /\ exists k : nat,
                         (k < 9)%nat /\ in_band three_pixels k y
                         /\ in_window
                              (rightx_current (band_state three_pixels bases k)) x).
Proof.
  apply (sliding_windows_pixels three_pixels [2; 3; 1] [8; 7; 6] [2; 3; 1] [8; 7; 6]).
  vm_compute. reflexivity.
Defined.

(** X2: the rows the cold-start search looks at.  Every returned pixel has its
    row in [H mod 9, H): the nine bands have [H // 9] rows each and are
    counted from the bottom, so the top [H mod 9] rows of a frame are never
    searched. *)
Theorem sliding_windows_rows (image : list (list Z))
    (leftx lefty rightx righty : list Z) :
  sliding_windows image = Ok (leftx, lefty, rightx, righty) ->
  forall x y,
    (x, y) ∈ zip leftx lefty \/ (x, y) ∈ zip rightx righty ->
    shape0 image mod 9 <= y < shape0 image.
Proof.
  intros Hrun x y Hin.
  apply sliding_windows_inv in Hrun as (bases & Hbases & -> & -> & -> & ->).
  destruct Hin as [Hin | Hin];
    [apply left_pixels_iff in Hin | apply right_pixels_iff in Hin];
    destruct Hin as [_ (k & Hk & Hband & _)]; by eapply in_band_rows.
Qed.

Lemma sliding_windows_rows_witness :
  sliding_windows three_pixels = Ok ([2; 3; 1], [8; 7; 6], [2; 3; 1], [8; 7; 6])
  /\ shape0 three_pixels mod 9 <= 8 < shape0 three_pixels.
Proof.
  assert (Hrun : sliding_windows three_pixels
                 = Ok ([2; 3; 1], [8; 7; 6], [2; 3; 1], [8; 7; 6]))
    by (vm_compute; reflexivity).
  split; [exact Hrun|].
  apply (sliding_windows_rows three_pixels [2; 3; 1] [8; 7; 6] [2; 3; 1] [8; 7; 6]
           Hrun 2 8).
  left. simpl. left.
Defined.

(** ** Frames too small for the cold-start search *)

Section ColdStart.

Variable polyfit : list Q -> list Q -> result fit.
Variable pow15 : Q -> Q.
Variable fillPoly :
  list (list (Z * Z * Z)) -> list (Z * Z) -> Z * Z * Z -> list (list (Z * Z * Z)).

Lemma detectLane_cold_raise (image : nat) (im : list (list Z)) (w : world) (e : exn) :
  heap w !! image = Some (Grid im) ->
  sliding_windows im = Raise e ->
  detectLane polyfit pow15 fillPoly image zero_fit zero_fit w = (Raise e, w).
Proof.
  intros Him Hsearch. unfold detectLane.
  change (is_zero_fit zero_fit && is_zero_fit zero_fit) with true. cbv iota.
  unfold bind at 1. unfold windowHistograms, bind at 1, load_grid. rewrite Him.
  unfold lift at 1. by rewrite Hsearch.
Qed.

Lemma detectLane_cold_no_pixels (image : nat) (im : list (list Z)) (w : world) :
  (forall ys, polyfit [] ys = Raise TypeError) ->
  heap w !! image = Some (Grid im) ->
  sliding_windows im = Ok ([], [], [], []) ->
  detectLane polyfit pow15 fillPoly image zero_fit zero_fit w = (Raise TypeError, w).
Proof.
  intros Hpoly Him Hsearch. unfold detectLane.
  change (is_zero_fit zero_fit && is_zero_fit zero_fit) with true. cbv iota.
  unfold bind at 1. unfold windowHistograms, bind at 1, load_grid. rewrite Him.
  unfold lift at 1. rewrite Hsearch.
  unfold bind at 1. rewrite Him. unfold bind at 1, fit_poly, bind at 1, lift at 1.
  simpl. by rewrite Hpoly.
Qed.

Lemma short_frame_no_inds (image : list (list Z)) (bases : Z * Z) :
  shape0 image < 9 ->
  concat (left_lane_inds (band_state image bases 9)) = []
  /\ concat (right_lane_inds (band_state image bases 9)) = [].
Proof.
  intros Hshort.
  assert (Hh : shape0 image / nwindows = 0).
  { apply Z.div_small. unfold shape0, nwindows in *. lia. }
  split; apply elem_of_nil_inv; intros i Hi;
    [apply elem_of_left_inds in Hi | apply elem_of_right_inds in Hi];
    destruct Hi as (k & y & x & _ & _ & _ & [Hlow Hhigh] & _);
    rewrite Hh in Hlow, Hhigh; lia.
Qed.

(** X3: a frame of fewer than nine rows.  The bands then have no rows
    ([H // 9 = 0]), the cold-start search returns empty pixel sets whatever
    the frame shows, and the per-frame call raises the [TypeError] of
    [np.polyfit], leaving the world as it was. *)
Theorem short_frame_fails (W image : nat) (im : list (list Z)) (w : world) :
  (forall ys, polyfit [] ys = Raise TypeError) ->
  heap w !! image = Some (Grid im) ->
  rectangular W im -> (2 <= W)%nat -> shape0 im < 9 ->
  sliding_windows im = Ok ([], [], [], [])
  /\ detectLane polyfit pow15 fillPoly image zero_fit zero_fit w
     = (Raise TypeError, w).
Proof.
  intros Hpoly Him Hrect HW Hshort.
  assert (Hsearch : sliding_windows im = Ok ([], [], [], [])).
  { unfold sliding_windows.
    destruct (lane_bases_defined W im Hrect HW) as [[l r] ->].
    unfold rbind. cbn [fst snd]. rewrite window_loop_band_state. cbv zeta.
    destruct (short_frame_no_inds im (l, r) Hshort) as [-> ->]. reflexivity. }
  split; [exact Hsearch|]. by apply (detectLane_cold_no_pixels image im w).
Qed.

(** X4: a frame of fewer than two columns.  The left half of the histogram is
    empty, [np.argmax] raises [ValueError], and so do the cold-start search
    and the per-frame call, leaving the world as it was. *)
Theorem narrow_frame_fails (W image : nat) (im : list (list Z)) (w : world) :
  heap w !! image = Some (Grid im) ->
  rectangular W im -> (W < 2)%nat ->
  sliding_windows im = Raise ValueError
  /\ detectLane polyfit pow15 fillPoly image zero_fit zero_fit w
     = (Raise ValueError, w).
Proof.
  intros Him Hrect HW.
  assert (Hsearch : sliding_windows im = Raise ValueError).
  { destruct (histogram_columns W im Hrect) as [Hlen _].
    unfold sliding_windows, lane_bases. rewrite Hlen, half_to_nat.
    assert (Hmid : (W / 2 = 0)%nat) by (apply Nat.div_small; lia).
    rewrite Hmid. reflexivity. }
  split; [exact Hsearch|]. by apply (detectLane_cold_raise image im w).
Qed.

End ColdStart.

Lemma short_frame_fails_witness :
  sliding_windows short_frame = Ok ([], [], [], [])
  /\ detectLane_exact 0%nat zero_fit zero_fit (world_with short_frame)
     = (Raise TypeError, world_with short_frame).
Proof.
  apply (short_frame_fails polyfit_exact pow15_approx fill_evenodd 4 0 short_frame
           (world_with short_frame)).
  - intros ys. reflexivity.
  - reflexivity.
  - split; [discriminate | repeat constructor].
  - lia.
  - vm_compute. reflexivity.
Defined.

Lemma narrow_frame_fails_witness :
  sliding_windows narrow_frame = Raise ValueError
  /\ detectLane_exact 0%nat zero_fit zero_fit (world_with narrow_frame)
     = (Raise ValueError, world_with narrow_frame).
Proof.
  apply (narrow_frame_fails polyfit_exact pow15_approx fill_evenodd 1 0 narrow_frame
           (world_with narrow_frame)).
  - reflexivity.
  - split; [discriminate | repeat constructor].
  - lia.
Defined.

(** ** Invariants of the window loop *)

Lemma nonzero_columns_lt (W : nat) (image : list (list Z)) :
  Forall (fun row => length row = W) image ->
  Forall (fun x => 0 <= x < Z.of_nat W) (snd (nonzero image)).
Proof.
  intros Hrows. apply Forall_forall. intros x Hx.
  apply list_elem_of_lookup in Hx as [i Hx].
  assert (Hlt : (i < length (fst (nonzero image)))%nat).
  { rewrite nonzero_lengths. by eapply lookup_lt_Some. }
  destruct (lookup_lt_is_Some_2 _ _ Hlt) as [y Hy].
  destruct (proj1 (nonzero_lookup image i y x) (conj Hy Hx))
    as ([y' x'] & Hc & -> & ->).
  assert (Hin : (y', x') ∈ nonzero_cells image)
    by (apply list_elem_of_lookup; by exists i).
  apply elem_of_nonzero_cells in Hin as (row & v & Hrow & Hv & _).
  rewrite Forall_forall in Hrows.
  assert (Hlen : length row = W)
    by (apply Hrows, list_elem_of_lookup; by exists y').
  apply lookup_lt_Some in Hv. simpl. lia.
Qed.

Lemma zsum_bounds (W : Z) (xs : list Z) :
  Forall (fun x => 0 <= x < W) xs ->
  0 <= zsum xs <= Z.of_nat (length xs) * (W - 1).
Proof. induction 1 as [|x xs Hx _ IH]; simpl zsum; simpl length; lia. Qed.

Lemma int_mean_range (W : Z) (xs : list Z) :
  Forall (fun x => 0 <= x < W) xs -> xs <> [] -> 0 <= int_mean xs < W.
Proof.
  intros Hxs Hne.
  assert (Hnonneg : Forall (fun x => 0 <= x) xs)
    by (eapply Forall_impl; [exact Hxs | simpl; lia]).
  pose proof (int_mean_floor xs Hnonneg Hne) as Hfloor. simpl in Hfloor.
  pose proof (zsum_bounds W xs Hxs) as Hsum.
  assert (Hn : 0 < Z.of_nat (length xs)) by (destruct xs; [done | simpl; lia]).
  nia.
Qed.

Lemma take_inds_range (W : Z) (arr : list Z) (inds : list nat) :
  0 < W -> Forall (fun x => 0 <= x < W) arr ->
  Forall (fun x => 0 <= x < W) (take_inds arr inds).
Proof.
  intros HW Harr. unfold take_inds. apply Forall_map, Forall_forall. intros i _.
  simpl. destruct (nth_in_or_default i arr 0) as [Hin | ->]; [|lia].
  rewrite Forall_forall in Harr. apply Harr. by apply list_elem_of_In.
Qed.

Lemma lane_bases_range (W : nat) (image : list (list Z)) :
  rectangular W image -> (2 <= W)%nat ->
  exists l r,
    lane_bases image = Ok (l, r)
    /\ 0 <= l < Z.of_nat (W / 2) /\ Z.of_nat (W / 2) <= r < Z.of_nat W.
Proof.
  intros Hrect HW. destruct (histogram_columns W image Hrect) as [Hlen _].
  assert (Hmid : (1 <= W / 2 < W)%nat).
  { split.
    - apply Nat.div_le_lower_bound; lia.
    - apply Nat.div_lt; lia. }
  destruct (argmax_first_max (take (W / 2) (histogram image))) as (l & Hl & Hlmax).
  { intros Hnil. apply (f_equal length) in Hnil.
    rewrite length_take, Hlen in Hnil.
    change (length (@nil Z)) with 0%nat in Hnil. lia. }
  destruct (argmax_first_max (drop (W / 2) (histogram image))) as (k & Hk & Hkmax).
  { intros Hnil. apply (f_equal length) in Hnil.
    rewrite length_drop, Hlen in Hnil.
    change (length (@nil Z)) with 0%nat in Hnil. lia. }
  apply first_max_lt_length in Hlmax, Hkmax.
  rewrite length_take, Hlen in Hlmax. rewrite length_drop, Hlen in Hkmax.
  exists (Z.of_nat l), (Z.of_nat k + Z.of_nat (W / 2)). split.
  - unfold lane_bases. rewrite Hlen, half_to_nat, Hl, Hk. simpl.
    by rewrite half_of_nat.
  - lia.
Qed.

Lemma band_state_centres (W : nat) (image : list (list Z)) (bases : Z * Z) (k : nat) :
  rectangular W image -> (2 <= W)%nat -> lane_bases image = Ok bases ->
  (k <= 9)%nat ->
  0 <= leftx_current (band_state image bases k) < Z.of_nat W
  /\ 0 <= rightx_current (band_state image bases k) < Z.of_nat W.
Proof.
  intros Hrect HW Hbases.
  destruct (lane_bases_range W image Hrect HW) as (l & r & Hlr & Hl & Hr).
  rewrite Hlr in Hbases. injection Hbases as <-.
  pose proof (nonzero_columns_lt W image (proj2 Hrect)) as Hcols.
  assert (Hmean : forall inds : list nat,
             minpix < Z.of_nat (length inds) ->
             0 <= int_mean (take_inds (snd (nonzero image)) inds) < Z.of_nat W).
  { intros inds Hlen. apply int_mean_range.
    - apply take_inds_range; [lia | done].
    - destruct inds; [unfold minpix in Hlen; simpl in Hlen; lia | done]. }
  induction k as [|k IH]; intros Hk.
  - unfold band_state; simpl. lia.
  - rewrite band_state_S by lia. destruct IH as [IHl IHr]; [lia|].
    unfold window_step; simpl. split.
    + destruct (minpix <? _) eqn:Hcmp; [|done].
      apply Hmean. by apply Z.ltb_lt.
    + destruct (minpix <? _) eqn:Hcmp; [|done].
      apply Hmean. by apply Z.ltb_lt.
Qed.

(** X5: the window centres stay inside the frame.  For a rectangular frame at
    least two columns wide, when any band starts (and after the last one) both
    centres are columns of the frame. *)
Theorem window_centres_in_frame (W : nat) (image : list (list Z)) :
  rectangular W image -> (2 <= W)%nat ->
  exists bases,
    lane_bases image = Ok bases
    /\ forall k : nat,
         (k <= 9)%nat ->
         0 <= leftx_current (band_state image bases k) < Z.of_nat W
         /\ 0 <= rightx_current (band_state image bases k) < Z.of_nat W.
Proof.
  intros Hrect HW. destruct (lane_bases_defined W image Hrect HW) as [bases Hbases].
  exists bases. split; [done|]. intros k Hk. by eapply band_state_centres.
Qed.

Lemma window_centres_in_frame_witness :
  exists bases,
    lane_bases (bottom_run 64 32) = Ok bases
    /\ forall k : nat,
         (k <= 9)%nat ->
         0 <= leftx_current (band_state (bottom_run 64 32) bases k) < Z.of_nat 64
         /\ 0 <= rightx_current (band_state (bottom_run 64 32) bases k) < Z.of_nat 64.
Proof.
  apply (window_centres_in_frame 64 (bottom_run 64 32)).
  - split; [discriminate|]. vm_compute. repeat constructor.
  - lia.
Defined.

Lemma NoDup_concat_map {A B : Type} (g : A -> list B) (l : list A) :
  NoDup l ->
  (forall j, j ∈ l -> NoDup (g j)) ->
  (forall j j' x, j ∈ l -> j' ∈ l -> j <> j' -> x ∈ g j -> x ∈ g j' -> False) ->
  NoDup (concat (map g l)).
Proof.
  induction 1 as [|j l Hj Hl IH]; intros Hg Hdisj; simpl; [constructor|].
  apply NoDup_app. split; [apply Hg; by left|]. split.
  - intros x Hx Hrest. apply elem_of_concat in Hrest as (l' & Hl' & Hx').
    apply list_elem_of_fmap in Hl' as (j' & -> & Hj').
    apply (Hdisj j j' x); [by left | by right | | done | done].
    intros ->. done.
  - apply IH.
    + intros j' Hj'. apply Hg. by right.
    + intros j1 j2 x H1 H2. apply Hdisj; by right.
Qed.

Lemma nonzero_cells_from_NoDup (a : nat) (image : list (list Z)) :
  NoDup (concat (imap (fun y row => map (fun x => (a + y, x)%nat) (row_nonzero row))
                   image)).
Proof.
  revert a. induction image as [|row rest IH]; intros a; simpl; [constructor|].
  apply NoDup_app. split.
  - apply NoDup_fmap; [by intros x x' [= ->] | apply flatnonzero_from_NoDup].
  - split.
    + intros [y x] Hin Hrest.
      apply list_elem_of_fmap in Hin as (x0 & [= -> ->] & _).
      apply elem_of_concat in Hrest as (l' & Hl' & Hx').
      apply elem_of_lookup_imap in Hl' as (y' & row' & -> & _).
      apply list_elem_of_fmap in Hx' as (x1 & [= Hy _] & _). simpl in Hy. lia.
    + rewrite (imap_ext _ (fun y row =>
                 map (fun x => (S a + y, x)%nat) (row_nonzero row))).
      * apply IH.
      * intros y row' _. simpl. apply map_ext. intros x. f_equal. lia.
Qed.

Lemma nonzero_cells_NoDup (image : list (list Z)) : NoDup (nonzero_cells image).
Proof. apply (nonzero_cells_from_NoDup 0 image). Qed.

Lemma band_inds_disjoint (image : list (list Z)) (j j' : nat) (y : Z) :
  j <> j' -> in_band image j y -> in_band image j' y -> False.
Proof.
  unfold in_band, nwindows. intros Hne [Hl Hh] [Hl' Hh'].
  assert (HH : 0 <= shape0 image) by (unfold shape0; lia).
  pose proof (Z.div_pos (shape0 image) 9 HH ltac:(lia)) as Hdiv.
  destruct (decide (j < j')%nat); nia.
Qed.

Lemma left_inds_NoDup (image : list (list Z)) (bases : Z * Z) :
  NoDup (concat (left_lane_inds (band_state image bases 9))).
Proof.
  rewrite band_state_left_inds by lia. apply NoDup_concat_map.
  - apply NoDup_seq.
  - intros j _. apply flatnonzero_from_NoDup.
  - intros j j' i _ _ Hne Hi Hi'. unfold window_left in Hi, Hi'.
    apply elem_of_good_inds in Hi as (y & x & Hy & _ & Hband & _).
    apply elem_of_good_inds in Hi' as (y' & x' & Hy' & _ & Hband' & _).
    rewrite Hy in Hy'. injection Hy' as <-.
    apply (band_inds_disjoint image j j' y Hne); unfold in_band; lia.
Qed.

Lemma right_inds_NoDup (image : list (list Z)) (bases : Z * Z) :
  NoDup (concat (right_lane_inds (band_state image bases 9))).
Proof.
  rewrite band_state_right_inds by lia. apply NoDup_concat_map.
  - apply NoDup_seq.
  - intros j _. apply flatnonzero_from_NoDup.
  - intros j j' i _ _ Hne Hi Hi'. unfold window_right in Hi, Hi'.
    apply elem_of_good_inds in Hi as (y & x & Hy & _ & Hband & _).
    apply elem_of_good_inds in Hi' as (y' & x' & Hy' & _ & Hband' & _).
    rewrite Hy in Hy'. injection Hy' as <-.
    apply (band_inds_disjoint image j j' y Hne); unfold in_band; lia.
Qed.

Lemma selected_NoDup (image : list (list Z)) (inds : list nat) :
  (forall i, i ∈ inds -> is_Some (fst (nonzero image) !! i)) ->
  NoDup inds ->
  NoDup (zip (take_inds (snd (nonzero image)) inds)
             (take_inds (fst (nonzero image)) inds)).
Proof.
  intros Hvalid Hinds. rewrite zip_take_inds.
  apply NoDup_fmap_2_strong; [|done].
  intros i i' Hi Hi' Heq.
  assert (Hcell : forall k, k ∈ inds ->
            exists c, nonzero_cells image !! k = Some c
                      /\ (nth k (snd (nonzero image)) 0, nth k (fst (nonzero image)) 0)
                         = (Z.of_nat (snd c), Z.of_nat (fst c))).
  { intros k Hk. destruct (Hvalid k Hk) as [y Hy].
    assert (Hlt : (k < length (snd (nonzero image)))%nat).
    { rewrite <- nonzero_lengths. by eapply lookup_lt_Some. }
    destruct (lookup_lt_is_Some_2 _ _ Hlt) as [x Hx].
    destruct (proj1 (nonzero_lookup image k y x) (conj Hy Hx))
      as (c & Hc & -> & ->).
    exists c. split; [done|]. by rewrite !nth_lookup, Hx, Hy. }
  destruct (Hcell i Hi) as ([y x] & Hc & Hv).
  destruct (Hcell i' Hi') as ([y' x'] & Hc' & Hv').
  rewrite Hv, Hv' in Heq. simpl in Heq.
  apply pair_equal_spec in Heq as [Hx Hy].
  apply Nat2Z.inj in Hx, Hy. subst x' y'.
  by eapply (NoDup_lookup (nonzero_cells image)); [apply nonzero_cells_NoDup | |].
Qed.

(** X6: no pixel is counted twice on a side.  The pairs [(x, y)] of a pixel
    set returned by the cold-start search are pairwise distinct (a pixel may
    still be in both the left and the right set). *)
Theorem sliding_windows_no_duplicates (image : list (list Z))
    (leftx lefty rightx righty : list Z) :
  sliding_windows image = Ok (leftx, lefty, rightx, righty) ->
  NoDup (zip leftx lefty) /\ NoDup (zip rightx righty).
Proof.
  intros Hrun.
  apply sliding_windows_inv in Hrun as (bases & Hbases & -> & -> & -> & ->).
  split; apply selected_NoDup.
  - intros i Hi. apply elem_of_left_inds in Hi as (k & y & x & _ & Hy & _).
    by exists y.
  - apply left_inds_NoDup.
  - intros i Hi. apply elem_of_right_inds in Hi as (k & y & x & _ & Hy & _).
    by exists y.
  - apply right_inds_NoDup.
Qed.

Lemma sliding_windows_no_duplicates_witness :
  sliding_windows three_pixels = Ok ([2; 3; 1], [8; 7; 6], [2; 3; 1], [8; 7; 6])
  /\ NoDup (zip [2; 3; 1] [8; 7; 6]) /\ NoDup (zip [2; 3; 1] [8; 7; 6]).
Proof.
  assert (Hrun : sliding_windows three_pixels
                 = Ok ([2; 3; 1], [8; 7; 6], [2; 3; 1], [8; 7; 6]))
    by (vm_compute; reflexivity).
  split; [exact Hrun|].
  exact (sliding_windows_no_duplicates three_pixels
           [2; 3; 1] [8; 7; 6] [2; 3; 1] [8; 7; 6] Hrun).
Defined.

Lemma good_inds_cover (nonzeroy nonzerox : list Z)
    (win_y_low win_y_high xl xh xl' xh' : Z) :
  Forall (fun x => xl <= x < xh) nonzerox ->
  Forall (fun x => xl' <= x < xh') nonzerox ->
  good_inds nonzeroy nonzerox win_y_low win_y_high xl xh
  = good_inds nonzeroy nonzerox win_y_low win_y_high xl' xh'.
Proof.
  intros H1 H2. unfold good_inds. f_equal.
  revert nonzeroy. induction H1 as [|x xs Hx _ IH]; intros [|y ys]; try done.
  inversion H2 as [|? ? Hx' Hxs']; subst. simpl. f_equal; [|by apply IH].
  assert (Hb : forall a b, a <= x < b -> (x <? b) = true /\ (a <=? x) = true)
    by (intros a b Hab; split; [apply Z.ltb_lt | apply Z.leb_le]; lia).
  destruct (Hb _ _ Hx) as [-> ->]. by destruct (Hb _ _ Hx') as [-> ->].
Qed.

(** X7: frames at most 80 columns wide.  Every window then spans the whole
    width, so the cold-start search cannot tell the two sides apart: the left
    and the right pixel sets are the same lists. *)
Theorem narrow_frame_sides_coincide (W : nat) (image : list (list Z))
    (leftx lefty rightx righty : list Z) :
  rectangular W image -> (2 <= W <= 80)%nat ->
  sliding_windows image = Ok (leftx, lefty, rightx, righty) ->
  leftx = rightx /\ lefty = righty.
Proof.
  intros Hrect HW Hrun.
  apply sliding_windows_inv in Hrun as (bases & Hbases & -> & -> & -> & ->).
  assert (Hinds : left_lane_inds (band_state image bases 9)
                  = right_lane_inds (band_state image bases 9)).
  { rewrite band_state_left_inds, band_state_right_inds by lia.
    apply map_ext_in. intros k Hk. apply in_seq in Hk.
    destruct (band_state_centres W image bases k Hrect ltac:(lia) Hbases ltac:(lia))
      as [Hl Hr].
    pose proof (nonzero_columns_lt W image (proj2 Hrect)) as Hcols.
    unfold window_left, window_right. apply good_inds_cover.
    - eapply Forall_impl; [exact Hcols|]. unfold window_margin. simpl. lia.
    - eapply Forall_impl; [exact Hcols|]. unfold window_margin. simpl. lia. }
  by rewrite Hinds.
Qed.

Lemma narrow_frame_sides_coincide_witness :
  rectangular 4 three_pixels
  /\ sliding_windows three_pixels = Ok ([2; 3; 1], [8; 7; 6], [2; 3; 1], [8; 7; 6])
  /\ [2; 3; 1] = [2; 3; 1] /\ [8; 7; 6] = [8; 7; 6].
Proof.
  assert (Hrect : rectangular 4 three_pixels)
    by (split; [discriminate | repeat constructor]).
  assert (Hrun : sliding_windows three_pixels
                 = Ok ([2; 3; 1], [8; 7; 6], [2; 3; 1], [8; 7; 6]))
    by (vm_compute; reflexivity).
  split; [exact Hrect|]. split; [exact Hrun|].
  apply (narrow_frame_sides_coincide 4 three_pixels
           [2; 3; 1] [8; 7; 6] [2; 3; 1] [8; 7; 6] Hrect); [lia | exact Hrun].
Defined.

(** *** The index arithmetic of the warm-start search *)

Lemma wrap64_small (z : Z) : - 2 ^ 63 <= z < 2 ^ 63 -> wrap64 z = z.
Proof. intros Hz. unfold wrap64. rewrite Z.mod_small; lia. Qed.

Lemma Qred_inject_Z (z : Z) : Qred (inject_Z z) = inject_Z z.
Proof.
  unfold Qred, inject_Z.
  pose proof (Z.ggcd_gcd z 1) as Hg. pose proof (Z.ggcd_correct_divisors z 1) as Hd.
  destruct (Z.ggcd z 1) as [g [r1 r2]]. simpl in Hg, Hd.
  rewrite Z.gcd_1_r in Hg. subst g. destruct Hd as [Hr1 Hr2].
  rewrite Z.mul_1_l in Hr1, Hr2. subst z r2. reflexivity.
Qed.

Lemma coefficient_int (q : Q) (z : Z) :
  (q == inject_Z z)%Q -> coefficient q = Int64 z.
Proof.
  intros Hq. unfold coefficient.
  by rewrite (Qred_complete _ _ Hq), Qred_inject_Z.
Qed.

Lemma abs_mul_bound (a u U : Z) :
  0 <= u <= U -> - (Z.abs a * U) <= a * u <= Z.abs a * U.
Proof. intros Hu. destruct (Z.abs_spec a) as [[? ->] | [? ->]]; nia. Qed.

Lemma Qltb_inject_Z (p q : Z) : Qltb (inject_Z p) (inject_Z q) = (p <? q).
Proof.
  unfold Qltb. destruct (Z.ltb_spec p q) as [Hlt | Hge].
  - apply negb_true_iff. destruct (Qle_bool _ _) eqn:Hle; [|done].
    apply Qle_bool_iff in Hle. rewrite <- Zle_Qle in Hle. lia.
  - apply negb_false_iff, Qle_bool_iff. by rewrite <- Zle_Qle.
Qed.

Lemma nonzero_rows_range (image : list (list Z)) :
  Forall (fun y => 0 <= y < shape0 image) (fst (nonzero image)).
Proof.
  unfold nonzero; simpl. apply Forall_map, Forall_forall. intros [y x] Hin. simpl.
  apply elem_of_nonzero_cells in Hin as (row & v & Hrow & _).
  apply lookup_lt_Some in Hrow. unfold shape0. lia.
Qed.

(** For an exact fit the test of the code is the test of the curve. *)
Lemma near_poly_exact (f : fit) (H : Z) (nonzeroy nonzerox : list Z) :
  exact_fit f H -> Forall (fun y => 0 <= y < H) nonzeroy ->
  near_poly f nonzeroy nonzerox = map (within_margin f) (zip nonzerox nonzeroy).
Proof.
  intros (a & b & c & Ha & Hb & Hc & Hbound) Hrows. unfold near_poly.
  rewrite (coefficient_int _ _ Ha), (coefficient_int _ _ Hb), (coefficient_int _ _ Hc).
  revert nonzerox. induction Hrows as [|y ys Hy _ IH]; intros [|x xs]; try done.
  simpl zip_with. simpl zip. simpl map. f_equal; [|apply IH].
  unfold search_margin in *.
  assert (Hyy : 0 <= y * y <= H * H) by nia.
  pose proof (abs_mul_bound a (y * y) (H * H) Hyy) as Hay.
  pose proof (abs_mul_bound b y H ltac:(lia)) as Hby.
  pose proof (Z.abs_nonneg a) as Hna. pose proof (Z.abs_nonneg b) as Hnb.
  assert (Hpow : 2 ^ 53 < 2 ^ 63) by done.
  assert (Hsq : wrap64 (a * wrap64 (y * y)) = a * (y * y)).
  { destruct (decide (a = 0)) as [-> | Hne]; [done|].
    rewrite (wrap64_small (y * y)) by nia. apply wrap64_small. nia. }
  rewrite Hsq, (wrap64_small (b * y)) by nia.
  rewrite (wrap64_small (a * (y * y) + b * y)) by lia.
  pose proof (Z.abs_spec c) as Hc'.
  rewrite (wrap64_small (a * (y * y) + b * y + c)) by lia.
  rewrite !wrap64_small by lia.
  assert (Hm : (poly_at f (inject_Z y) == inject_Z (a * (y * y) + b * y + c))%Q).
  { unfold poly_at. rewrite Ha, Hb, Hc, !inject_Z_plus, !inject_Z_mult. reflexivity. }
  unfold within_margin, poly_margin, search_margin. cbn [fst snd].
  rewrite <- !Qltb_inject_Z. f_equal; apply Qltb_comp; try reflexivity.
  - rewrite Hm, inject_Z_plus. reflexivity.
  - rewrite Hm. unfold Z.sub. rewrite inject_Z_plus, inject_Z_opp. reflexivity.
Qed.

Lemma near_poly_select (f : fit) (H : Z) (nonzeroy nonzerox : list Z) :
  exact_fit f H -> Forall (fun y => 0 <= y < H) nonzeroy ->
  zip (take_mask nonzerox (near_poly f nonzeroy nonzerox))
      (take_mask nonzeroy (near_poly f nonzeroy nonzerox))
  = filter (fun cell => within_margin f cell = true) (zip nonzerox nonzeroy).
Proof.
  intros Hf Hrows. rewrite (near_poly_exact f H) by done. clear Hf Hrows.
  revert nonzeroy. induction nonzerox as [|x xs IH]; intros [|y ys]; try done.
  simpl zip. simpl map. destruct (within_margin f (x, y)) eqn:Hin; simpl take_mask.
  - rewrite filter_cons_True by done. simpl. by rewrite IH.
  - rewrite filter_cons_False by (rewrite Hin; discriminate). apply IH.
Qed.

(** X8: with [binary_warped] bound, and prior fits with integer coefficients
    whose curves stay below [2^53] over the rows of the array it is bound to,
    the pixel sets are those of that array: its on pixels strictly within 60
    columns of the prior curves, in the row-major order of the array. *)
Theorem searchAroundPoly_selects (image bw : nat) (g : list (list Z))
    (left_fit right_fit : fit) (w : world) :
  g_binary_warped w = Some bw -> heap w !! bw = Some (Grid g) ->
  exact_fit left_fit (shape0 g) -> exact_fit right_fit (shape0 g) ->
  exists leftx lefty rightx righty,
    searchAroundPoly image left_fit right_fit w
    = (Ok (leftx, lefty, rightx, righty), w)
    /\ zip leftx lefty = pixels_near left_fit g
    /\ zip rightx righty = pixels_near right_fit g.
Proof.
  intros Hbw Hg Hleft Hright.
  unfold searchAroundPoly, bind, read_global, load_grid, ret.
  rewrite Hbw, Hg. do 4 eexists. split; [reflexivity|].
  unfold pixels_near, on_pixels.
  by rewrite !(near_poly_select _ (shape0 g)) by (done || apply nonzero_rows_range).
Qed.

Lemma searchAroundPoly_selects_witness :
  let left_fit := Fit 1 (-14) 50 in
  let right_fit := Fit 0 0 100 in
  let w := world_with_global one_pixel three_pixels in
  searchAroundPoly 0%nat left_fit right_fit w = (Ok ([1; 3; 2], [6; 7; 8], [], []), w)
  /\ exists leftx lefty rightx righty,
       searchAroundPoly 0%nat left_fit right_fit w
       = (Ok (leftx, lefty, rightx, righty), w)
       /\ zip leftx lefty = pixels_near left_fit three_pixels
       /\ zip rightx righty = pixels_near right_fit three_pixels.
Proof.
  intros left_fit right_fit w. split; [vm_compute; reflexivity|].
  apply (searchAroundPoly_selects 0%nat 1%nat three_pixels left_fit right_fit w).
  - reflexivity.
  - vm_compute. reflexivity.
  - exists 1, (-14), 50. repeat split; vm_compute; reflexivity.
  - exists 0, 0, 100. repeat split; vm_compute; reflexivity.
Defined.

(** ** The geometry a successful call reports *)

Section Geometry.

Variable polyfit : list Q -> list Q -> result fit.
Variable pow15 : Q -> Q.
Variable fillPoly :
  list (list (Z * Z * Z)) -> list (Z * Z) -> Z * Z * Z -> list (list (Z * Z * Z)).

(** X9: warm start in the notebook.  With a prior fit other than [[0,0,0]]
    on either side and no global [binary_warped], the per-frame call raises
    [NameError] and leaves the world as it was. *)
Theorem detectLane_warm_start_unbound (image : nat) (left_fit right_fit : fit)
    (w : world) :
  is_zero_fit left_fit && is_zero_fit right_fit = false ->
  g_binary_warped w = None ->
  detectLane polyfit pow15 fillPoly image left_fit right_fit w = (Raise NameError, w).
Proof.
  intros Hwarm Hbw. unfold detectLane. rewrite Hwarm. unfold bind at 1.
  by rewrite (searchAroundPoly_unbound image left_fit right_fit w Hbw).
Qed.

(** X12: a call that raises changes nothing.  The search, the fit, the
    curvature and the offset, where [detectLane] can raise, all come before
    the output image is allocated (the drawing routine is taken to be total),
    so no array is created or drawn on and no global is touched. *)
Theorem detectLane_failure_leaves_world (image : nat) (left_fit right_fit : fit)
    (w w' : world) (e : exn) :
  detectLane polyfit pow15 fillPoly image left_fit right_fit w = (Raise e, w') ->
  w' = w.
Proof.
  intros Hrun. apply detectLane_inv in Hrun
    as [(e' & _ & ->)
       | (im & lx & ly & rx & ry & lfx & rfx & lrw & rrw & ploty & curvature
          & lb & rb & drawn & _ & _ & _ & _ & _ & _ & [=] & _)].
  reflexivity.
Qed.

Lemma fit_poly_inv (H : Z) (leftx lefty rightx righty : list Z) (w w' : world)
    (left_fitx right_fitx : list Q) (left_fit_rw right_fit_rw : fit) (ploty : list Q) :
  fit_poly polyfit H leftx lefty rightx righty w
  = (Ok (left_fitx, right_fitx, left_fit_rw, right_fit_rw, ploty), w') ->
  exists left_fit right_fit,
    polyfit (map inject_Z lefty) (map inject_Z leftx) = Ok left_fit
    /\ polyfit (map inject_Z righty) (map inject_Z rightx) = Ok right_fit
    /\ polyfit (scale ym_per_pix lefty) (scale xm_per_pix leftx) = Ok left_fit_rw
    /\ polyfit (scale ym_per_pix righty) (scale xm_per_pix rightx) = Ok right_fit_rw
    /\ ploty = linspace0 H
    /\ left_fitx = polyval left_fit ploty
    /\ right_fitx = polyval right_fit ploty
    /\ w' = w.
Proof.
  unfold fit_poly, bind, lift, try_except, ret.
  destruct (polyfit (map inject_Z lefty) (map inject_Z leftx)) as [lf | e]; [|done].
  destruct (polyfit (map inject_Z righty) (map inject_Z rightx)) as [rf | e]; [|done].
  destruct (polyfit (scale ym_per_pix lefty) (scale xm_per_pix leftx))
    as [lrw | e]; [|done].
  destruct (polyfit (scale ym_per_pix righty) (scale xm_per_pix rightx))
    as [rrw | e]; [|done].
  simpl. intros [= <- <- <- <- <- <-]. by exists lf, rf.
Qed.

Lemma linspace0_lookup (H : Z) (i : nat) :
  (i < Z.to_nat H)%nat -> linspace0 H !! i = Some (inject_Z (Z.of_nat i)).
Proof.
  intros Hi. unfold linspace0. rewrite list_lookup_fmap.
  assert (Hseq : seq 0 (Z.to_nat H) !! i = Some i) by (apply lookup_seq; lia).
  by rewrite Hseq.
Qed.

Lemma linspace0_length (H : Z) : length (linspace0 H) = Z.to_nat H.
Proof. unfold linspace0. by rewrite length_map, length_seq. Qed.

(** X10: the curves [fit_poly] returns.  On success the plotting sequence is
    0, 1, ..., H-1, both fitted curves have one value per row, the value of the
    pixel-space least-squares parabola of that side at the row (never the
    fallback parabola), the metric coefficients are the fits of the scaled
    pixels, nothing is printed and the world is as before. *)
Theorem fit_poly_curves (H : Z) (leftx lefty rightx righty : list Z) (w w' : world)
    (left_fitx right_fitx : list Q) (left_fit_rw right_fit_rw : fit) (ploty : list Q) :
  fit_poly polyfit H leftx lefty rightx righty w
  = (Ok (left_fitx, right_fitx, left_fit_rw, right_fit_rw, ploty), w') ->
  w' = w
  /\ length ploty = Z.to_nat H
  /\ length left_fitx = Z.to_nat H
  /\ length right_fitx = Z.to_nat H
  /\ polyfit (scale ym_per_pix lefty) (scale xm_per_pix leftx) = Ok left_fit_rw
  /\ polyfit (scale ym_per_pix righty) (scale xm_per_pix rightx) = Ok right_fit_rw
  /\ exists left_fit right_fit,
       polyfit (map inject_Z lefty) (map inject_Z leftx) = Ok left_fit
       /\ polyfit (map inject_Z righty) (map inject_Z rightx) = Ok right_fit
       /\ forall i : nat,
            (i < Z.to_nat H)%nat ->
            ploty !! i = Some (inject_Z (Z.of_nat i))
            /\ left_fitx !! i = Some (poly_at left_fit (inject_Z (Z.of_nat i)))
            /\ right_fitx !! i = Some (poly_at right_fit (inject_Z (Z.of_nat i))).
Proof.
  intros Hrun.
  apply fit_poly_inv in Hrun
    as (lf & rf & Hlf & Hrf & Hlrw & Hrrw & -> & -> & -> & ->).
  unfold polyval. rewrite !length_map, linspace0_length.
  repeat (split; [done|]). exists lf, rf. split; [done|]. split; [done|].
  intros i Hi. rewrite !list_lookup_fmap, (linspace0_lookup H i Hi). done.
Qed.

End Geometry.





Lemma Qfloor_half_comm (p q : Q) : Qfloor ((p + q) / 2) = Qfloor ((q + p) / 2).
Proof. apply Qfloor_comp. field. Qed.

Section Curvature.

Variable pow15 : Q -> Q.

Lemma measure_curvature_real_inv (ploty : list Q) (left_fit right_fit : fit)
    (w w' : world) (curvature : Z) :
  measure_curvature_real pow15 ploty left_fit right_fit w = (Ok curvature, w') ->
  exists y_eval,
    np_max ploty = Ok y_eval
    /\ ~ (fa left_fit == 0)%Q /\ ~ (fa right_fit == 0)%Q
    /\ curvature
       = Qfloor ((radius pow15 left_fit y_eval + radius pow15 right_fit y_eval) / 2).
Proof.
  unfold measure_curvature_real, bind, lift.
  destruct (np_max ploty) as [y_eval | e]; [|done].
  destruct (fadd (curverad pow15 left_fit y_eval) (curverad pow15 right_fit y_eval))
    as [s | n |] eqn:Hsum; [|done..].
  apply fadd_finite in Hsum as (p & q & Hp & Hq & _ & ->).
  apply curverad_inv in Hp as (Hl & _ & ->).
  apply curverad_inv in Hq as (Hr & _ & ->).
  unfold ffloordiv, py_int. rewrite Qtrunc_inject_Z.
  intros [= <- _]. by exists y_eval.
Qed.

(** X13: the reported curvature does not depend on which of the two fits is
    called left: swapping the arguments gives the same result, value or
    exception. *)
Theorem measure_curvature_real_swap (ploty : list Q) (left_fit right_fit : fit)
    (w : world) :
  measure_curvature_real pow15 ploty left_fit right_fit w
  = measure_curvature_real pow15 ploty right_fit left_fit w.
Proof.
  unfold measure_curvature_real, bind, lift.
  destruct (np_max ploty) as [y_eval | e]; [|done].
  destruct (curverad pow15 left_fit y_eval) as [p | s |],
           (curverad pow15 right_fit y_eval) as [q | t |];
    unfold fadd; try done.
  - unfold fl. rewrite (in_range_comp (q + p) (p + q)) by apply Qplus_comm.
    destruct (in_range (p + q)); [|done].
    unfold ffloordiv, py_int. by rewrite !Qtrunc_inject_Z, Qfloor_half_comm.
  - by destruct s, t.
Qed.

(** X14: the reported curvature is never negative, provided the library power
    is not negative on arguments that are at least 1. *)
Theorem measure_curvature_real_nonneg (ploty : list Q) (left_fit right_fit : fit)
    (w w' : world) (curvature : Z) :
  (forall x, (1 <= x)%Q -> (0 <= pow15 x)%Q) ->
  measure_curvature_real pow15 ploty left_fit right_fit w = (Ok curvature, w') ->
  0 <= curvature.
Proof.
  intros Hpow Hrun.
  apply measure_curvature_real_inv in Hrun as (y_eval & _ & Hl & Hr & ->).
  assert (Hrad : forall f, ~ (fa f == 0)%Q -> (0 <= radius pow15 f y_eval)%Q).
  { intros f Hf. unfold radius. apply Qle_shift_div_l.
    - pose proof (Qabs_nonneg (2 * fa f)) as Hnn.
      apply Qle_lteq in Hnn as [Hpos | Hzero]; [done|]. exfalso. apply Hf.
      symmetry in Hzero. apply Qeq_bool_iff in Hzero.
      rewrite Qabs_double_zero in Hzero. by apply Qeq_bool_iff.
    - rewrite Qmult_0_l. apply Hpow.
      rewrite <- (Qplus_0_r 1) at 1. apply Qplus_le_r.
      apply Qle_trans with ((2 * fa f * y_eval + fb f) ^ 2)%Q;
        [apply Qsqr_nonneg | apply Qle_refl]. }
  change 0 with (Qfloor 0). apply Qfloor_resp_le.
  apply Qle_shift_div_l; [reflexivity|]. rewrite Qmult_0_l.
  rewrite <- (Qplus_0_r 0). apply Qplus_le_compat; by apply Hrad.
Qed.

End Curvature.

Section Report.

Variable polyfit : list Q -> list Q -> result fit.
Variable pow15 : Q -> Q.
Variable fillPoly :
  list (list (Z * Z * Z)) -> list (Z * Z) -> Z * Z * Z -> list (list (Z * Z * Z)).


End Report.

Lemma pow15_approx_nonneg (x : Q) : (1 <= x)%Q -> (0 <= pow15_approx x)%Q.
Proof.
  intros Hx. unfold pow15_approx. rewrite Qred_correct.
  apply Qmult_le_0_compat.
  - apply Qle_trans with 1%Q; [discriminate | done].
  - unfold sqrt53, Qle. simpl. rewrite Z.mul_1_r. apply Z.sqrt_nonneg.
Qed.

Lemma detectLane_warm_start_unbound_witness :
  detectLane_exact 0%nat (Fit 0 0 1) (Fit 0 0 3) (world_with three_pixels)
  = (Raise NameError, world_with three_pixels).
Proof.
  apply (detectLane_warm_start_unbound polyfit_exact pow15_approx fill_evenodd
           0%nat (Fit 0 0 1) (Fit 0 0 3) (world_with three_pixels));
    reflexivity.
Defined.

Lemma detectLane_failure_leaves_world_witness :
  snd (detectLane_exact 0%nat zero_fit zero_fit (world_with zero_frame))
  = world_with zero_frame.
Proof.
  assert (Hfst : fst (detectLane_exact 0%nat zero_fit zero_fit
                        (world_with zero_frame)) = Raise TypeError)
    by (vm_compute; reflexivity).
  apply (detectLane_failure_leaves_world polyfit_exact pow15_approx fill_evenodd
           0%nat zero_fit zero_fit (world_with zero_frame) _ TypeError).
  rewrite <- Hfst. apply surjective_pairing.
Defined.

Lemma fit_poly_curves_witness :
  exists left_fitx right_fitx left_fit_rw right_fit_rw ploty,
    fit_poly polyfit_exact 9 [2; 3; 1] [8; 7; 6] [2; 3; 1] [8; 7; 6] fresh_world
    = (Ok (left_fitx, right_fitx, left_fit_rw, right_fit_rw, ploty), fresh_world)
    /\ length ploty = 9%nat /\ length left_fitx = 9%nat
    /\ left_fitx !! 8%nat = Some (poly_at (Fit (-3 # 2) (43 # 2) (-74)) 8).
Proof.
  destruct (fit_poly polyfit_exact 9 [2; 3; 1] [8; 7; 6] [2; 3; 1] [8; 7; 6]
              fresh_world) as [[[[[[lfx rfx] lrw] rrw] ploty] | e] w'] eqn:Hrun.
  2: { vm_compute in Hrun. discriminate Hrun. }
  destruct (fit_poly_curves polyfit_exact 9 [2; 3; 1] [8; 7; 6] [2; 3; 1] [8; 7; 6]
              fresh_world w' lfx rfx lrw rrw ploty Hrun)
    as (-> & Hlen & Hlenl & _ & _ & _ & lf & rf & Hlf & _ & Hat).
  exists lfx, rfx, lrw, rrw, ploty. split; [done|]. split; [done|]. split; [done|].
  destruct (Hat 8%nat ltac:(simpl; lia)) as (_ & Hl & _).
  rewrite Hl. vm_compute in Hlf. by injection Hlf as <-.
Defined.

Lemma measure_curvature_real_nonneg_witness :
  measure_curvature_real pow15_approx (linspace0 9)
    (Fit (37 # 2625) (37 # 7000) (37 # 21000))
    (Fit (37 # 2625) (37 # 7000) (37 # 21000)) fresh_world
  = (Ok 38, fresh_world)
  /\ 0 <= 38.
Proof.
  assert (Hrun : measure_curvature_real pow15_approx (linspace0 9)
                   (Fit (37 # 2625) (37 # 7000) (37 # 21000))
                   (Fit (37 # 2625) (37 # 7000) (37 # 21000)) fresh_world
                 = (Ok 38, fresh_world)) by (vm_compute; reflexivity).
  split; [exact Hrun|].
  exact (measure_curvature_real_nonneg pow15_approx (linspace0 9)
           (Fit (37 # 2625) (37 # 7000) (37 # 21000))
           (Fit (37 # 2625) (37 # 7000) (37 # 21000)) fresh_world fresh_world 38
           pow15_approx_nonneg Hrun).
Defined.


(** ** Thresholding and the overlay text *)

Lemma threshold_lookup (thresh : Z * Z) (a : list (list Z)) (y x : nat)
    (row : list Z) (v : Z) :
  a !! y = Some row -> row !! x = Some v ->
  exists row', threshold thresh a !! y = Some row'
               /\ row' !! x = Some (if in_thresh thresh v then 1 else 0).
Proof.
  intros Hrow Hv. unfold threshold. rewrite list_lookup_fmap, Hrow. simpl.
  eexists. split; [reflexivity|]. by rewrite list_lookup_fmap, Hv.
Qed.

Lemma threshold_values (thresh : Z * Z) (a : list (list Z)) (y x : nat)
    (row : list Z) (b : Z) :
  threshold thresh a !! y = Some row -> row !! x = Some b -> b = 0 \/ b = 1.
Proof.
  unfold threshold. rewrite list_lookup_fmap.
  destruct (a !! y) as [r|]; simpl; [|done]. intros [= <-].
  rewrite list_lookup_fmap. destruct (r !! x) as [v|]; simpl; [|done].
  intros [= <-]. destruct (in_thresh thresh v); auto.
Qed.

(** X16: the binary frame of [colorGradient].  Every entry of the array it
    returns is 0 or 1, and the entry at a pixel is 1 exactly when the S channel
    there lies within [s_thresh] or the scaled derivative within [sx_thresh]
    (bounds included). *)
Theorem colorGradient_binary (colour_frame : Type)
    (s_channel_of scaled_sobel_of : colour_frame -> list (list Z))
    (img : colour_frame) (s_thresh sx_thresh : Z * Z) :
  Forall (Forall (fun v => v = 0 \/ v = 1))
    (colorGradient colour_frame s_channel_of scaled_sobel_of img s_thresh sx_thresh)
  /\ forall (y x : nat) (s_row sx_row : list Z) (s sx : Z),
       s_channel_of img !! y = Some s_row -> s_row !! x = Some s ->
       scaled_sobel_of img !! y = Some sx_row -> sx_row !! x = Some sx ->
       exists row,
         colorGradient colour_frame s_channel_of scaled_sobel_of img s_thresh sx_thresh
           !! y = Some row
         /\ row !! x
            = Some (if in_thresh s_thresh s || in_thresh sx_thresh sx then 1 else 0).
Proof.
  unfold colorGradient, either_mask. split.
  - apply Forall_forall. intros row Hrow. apply Forall_forall. intros v Hv.
    apply list_elem_of_lookup in Hrow as [y Hrow].
    apply list_elem_of_lookup in Hv as [x Hv].
    rewrite lookup_zip_with in Hrow.
    destruct (threshold s_thresh (s_channel_of img) !! y) as [r1|]; [|done].
    destruct (threshold sx_thresh (scaled_sobel_of img) !! y) as [r2|]; [|done].
    simpl in Hrow. injection Hrow as <-. rewrite lookup_zip_with in Hv.
    destruct (r1 !! x) as [b1|]; [|done]. destruct (r2 !! x) as [b2|]; [|done].
    simpl in Hv. injection Hv as <-. destruct ((b1 =? 1) || (b2 =? 1)); auto.
  - intros y x s_row sx_row s sx Hs_row Hs Hsx_row Hsx.
    destruct (threshold_lookup s_thresh _ y x s_row s Hs_row Hs) as (r1 & Hr1 & Hb1).
    destruct (threshold_lookup sx_thresh _ y x sx_row sx Hsx_row Hsx)
      as (r2 & Hr2 & Hb2).
    rewrite lookup_zip_with, Hr1, Hr2. simpl. eexists. split; [reflexivity|].
    rewrite lookup_zip_with, Hb1, Hb2. simpl.
    by destruct (in_thresh s_thresh s), (in_thresh sx_thresh sx).
Qed.

Lemma xm_per_pix_pos : (0 < xm_per_pix)%Q.
Proof. reflexivity. Qed.

Lemma offset_negative (lane_centre : Q) :
  (640 < lane_centre)%Q -> ((640 - lane_centre) * xm_per_pix < 0)%Q.
Proof.
  intros Hc.
  assert (Hpos : (0 < (lane_centre - 640) * xm_per_pix)%Q).
  { apply Qmult_lt_0_compat; [|apply xm_per_pix_pos].
    unfold Qminus. by rewrite <- Qlt_minus_iff. }
  apply Qopp_lt_compat in Hpos.
  eapply Qlt_le_trans; [|apply Qle_refl].
  eapply Qle_lt_trans; [|exact Hpos]. apply Qle_lteq. right. ring.
Qed.

Lemma offset_positive (lane_centre : Q) :
  (lane_centre < 640)%Q -> (0 < (640 - lane_centre) * xm_per_pix)%Q.
Proof.
  intros Hc. apply Qmult_lt_0_compat; [|apply xm_per_pix_pos].
  unfold Qminus. by rewrite <- Qlt_minus_iff.
Qed.

(** X15: the side the overlay names.  For the offset [detectLane] computes
    from a lane centre (the mean of the two fitted curves at the bottom row),
    [addText] writes "centered" when the lane centre is column 640, "left of
    center" with the absolute offset when the lane centre is right of column
    640, and "right of center" with the offset when it is left of it. *)
Theorem position_text_side (format2 : Q -> string) (lane_centre : Q) :
  let offset := ((640 - lane_centre) * xm_per_pix)%Q in
  ((lane_centre == 640)%Q -> position_text format2 offset = "Vehicle is centered")
  /\ ((640 < lane_centre)%Q ->
      position_text format2 offset
      = "Vehicle is " +:+ format2 (Qabs offset) +:+ "m left of center")
  /\ ((lane_centre < 640)%Q ->
      position_text format2 offset
      = "Vehicle is " +:+ format2 offset +:+ "m right of center").
Proof.
  intros offset. unfold position_text, Qltb. split; [|split].
  - intros Hc. assert (Hz : (offset == 0)%Q) by (subst offset; rewrite Hc; ring).
    apply Qeq_bool_iff in Hz. by rewrite Hz.
  - intros Hc. pose proof (offset_negative lane_centre Hc) as Hneg. fold offset in Hneg.
    destruct (Qeq_bool offset 0) eqn:Hz.
    { apply Qeq_bool_iff in Hz. rewrite Hz in Hneg. by apply Qlt_irrefl in Hneg. }
    destruct (Qle_bool 0 offset) eqn:Hle; [|done].
    apply Qle_bool_iff in Hle. by apply Qlt_not_le in Hneg.
  - intros Hc. pose proof (offset_positive lane_centre Hc) as Hpos. fold offset in Hpos.
    destruct (Qeq_bool offset 0) eqn:Hz.
    { apply Qeq_bool_iff in Hz. rewrite Hz in Hpos. by apply Qlt_irrefl in Hpos. }
    destruct (Qle_bool 0 offset) eqn:Hle; [done|].
    exfalso. apply Qlt_le_weak, Qle_bool_iff in Hpos. congruence.
Qed.

(** X17: [addText] draws in place.  Given an image, it replaces the contents
    of that very array by the image with the two lines of text; it creates no
    array and changes no other array and no global. *)
Theorem addText_in_place (format2 : Q -> string)
    (putText : list (list (Z * Z * Z)) -> string -> Z * Z -> list (list (Z * Z * Z)))
    (img : nat) (c : list (list (Z * Z * Z))) (curvature : Z) (offset : Q) (w : world) :
  heap w !! img = Some (Image3 c) ->
  exists w',
    addText format2 putText img curvature offset w = (Ok tt, w')
    /\ heap w' !! img
       = Some (Image3 (putText (putText c (curvature_text curvature) (50, 50))
                         (position_text format2 offset) (50, 100)))
    /\ (forall l, l <> img -> heap w' !! l = heap w !! l)
    /\ dom (heap w') = dom (heap w)
    /\ g_left_fit w' = g_left_fit w /\ g_right_fit w' = g_right_fit w
    /\ g_binary_warped w' = g_binary_warped w.
Proof.
  intros Himg. eexists. split.
  - unfold addText, bind. unfold update_image3 at 1. rewrite Himg.
    by rewrite update_after_insert.
  - simpl. split; [by rewrite lookup_insert_eq|]. split.
    + intros l Hl. by rewrite lookup_insert_ne.
    + split; [|done]. apply dom_insert_lookup_L. by eexists.
Qed.

Lemma addText_in_place_witness :
  exists w',
    addText format_floor putText_mark 0%nat 38118 (755392 # 224000) world_with_image
    = (Ok tt, w')
    /\ heap w' !! 0%nat
       = Some (Image3 (putText_mark
                         (putText_mark (replicate 2 (replicate 2 (0, 0, 0)))
                            (curvature_text 38118) (50, 50))
                         (position_text format_floor (755392 # 224000)) (50, 100)))
    /\ (forall l, l <> 0%nat -> heap w' !! l = heap world_with_image !! l)
    /\ dom (heap w') = dom (heap world_with_image)
    /\ g_left_fit w' = g_left_fit world_with_image
    /\ g_right_fit w' = g_right_fit world_with_image
    /\ g_binary_warped w' = g_binary_warped world_with_image.
Proof.
  apply (addText_in_place format_floor putText_mark 0%nat
           (replicate 2 (replicate 2 (0, 0, 0))) 38118 (755392 # 224000)
           world_with_image).
  reflexivity.
Defined.
